(** * A shallow embedding of [MainCode.py] (Image Enhancement Tool)

    The program is an interactive loop around seven image adjustments.
    Pixel buffers are 8-bit RGB arrays, modelled as rows of [Z] triples;
    the float64 arrays of numpy are modelled with exact rationals [Q].
    The C [float] arithmetic of Pillow's [ImagingBlend] and OpenCV's
    [equalizeHist], and the Python [float] sums of Pillow's [ImageStat],
    are IEEE 754 binary32 and binary64 values ([spec_float]).  Python
    objects live in a heap (a list indexed by location), so that aliasing
    and in-place writes are explicit; console and file effects are
    recorded as a list of events. *)

From Stdlib Require Import ZArith QArith Qround String Ascii List Bool Lia.
From Stdlib Require Import Floats.SpecFloat.
From Stdlib Require Reals Lra Psatz.
Import ListNotations.

Open Scope Z_scope.

(** ** Pixel data *)

Definition pixel := (Z * Z * Z)%type.
Definition image := list (list pixel).
Definition fpixel := (Q * Q * Q)%type.
Definition fimage := list (list fpixel).
Definition gray := list (list Z).

Definition pmap {A B : Type} (f : A -> B) (p : A * A * A) : B * B * B :=
  let '(r, g, b) := p in (f r, f g, f b).

Definition pforall {A : Type} (f : A -> bool) (p : A * A * A) : bool :=
  let '(r, g, b) := p in f r && f g && f b.

Definition imap {A B : Type} (f : A -> B) (img : list (list A)) : list (list B) :=
  map (map f) img.

Definition iforall {A : Type} (f : A -> bool) (img : list (list A)) : bool :=
  forallb (forallb f) img.

(** The shape of a 2-D array: the length of every row (height and width). *)
Definition shape {A : Type} (img : list (list A)) : list nat :=
  map (@length A) img.

Fixpoint zipw {A B C : Type} (f : A -> B -> C) (l1 : list A) (l2 : list B)
  : list C :=
  match l1, l2 with
  | x :: t1, y :: t2 => f x y :: zipw f t1 t2
  | _, _ => []
  end.

Definition clamp8 (v : Z) : Z := Z.max 0 (Z.min 255 v).

Definition in_u8 (v : Z) : bool := (0 <=? v) && (v <=? 255).

(** [np.rint] (and SSE's round-to-nearest): round half to even. *)
Definition rint (q : Q) : Z :=
  let f := Qfloor q in
  let d := (q - inject_Z f)%Q in
  if Qeq_bool d (1 # 2) then (if Z.even f then f else f + 1)
  else if Qle_bool (1 # 2) d then f + 1 else f.

(** ** IEEE 754 arithmetic of the C code and of Python floats

    Rounding is to nearest even, as x86-64 SSE computes; a C expression of
    [float] operands is evaluated in [float] ([FLT_EVAL_METHOD] 0). *)

Module Fp.

Definition prec32 : Z := 24.
Definition emax32 : Z := 128.
Definition prec64 : Z := 53.
Definition emax64 : Z := 1024.

(** [(float)n] and [(double)n] of an integer. *)
Definition of_Z32 (n : Z) : spec_float := binary_normalize prec32 emax32 n 0 false.
Definition of_Z64 (n : Z) : spec_float := binary_normalize prec64 emax64 n 0 false.

(** The value [q] rounded to the format. *)
Definition round_Q (prec emax : Z) (q : Q) : spec_float :=
  match Qnum q with
  | Z0 => S754_zero false
  | Zpos n =>
      let '(m, e, l) := SFdiv_core_binary prec emax (Zpos n) 0 (Zpos (Qden q)) 0 in
      binary_round_aux prec emax false m e l
  | Zneg n =>
      let '(m, e, l) := SFdiv_core_binary prec emax (Zpos n) 0 (Zpos (Qden q)) 0 in
      binary_round_aux prec emax true m e l
  end.

(** [(float)x] of a Python float [x]. *)
Definition of_Q32 (x : Q) : spec_float := round_Q prec32 emax32 x.

Definition zero32 : spec_float := S754_zero false.
Definition one32 : spec_float := of_Z32 1.
Definition zero64 : spec_float := S754_zero false.
Definition half64 : spec_float := round_Q prec64 emax64 (1 # 2).

Definition add32 := SFadd prec32 emax32.
Definition mul32 := SFmul prec32 emax32.
Definition div32 := SFdiv prec32 emax32.
Definition add64 := SFadd prec64 emax64.
Definition div64 := SFdiv prec64 emax64.

(** The exact value of a finite float. *)
Definition to_Q (x : spec_float) : option Q :=
  match x with
  | S754_zero _ => Some 0%Q
  | S754_finite s m e =>
      let v := if 0 <=? e then inject_Z (Z.shiftl (Zpos m) e)
               else Qmake (Zpos m) (Pos.pow 2 (Z.to_pos (- e))) in
      Some (if s then Qopp v else v)
  | _ => None
  end.

(** Truncation toward zero of a finite float (C casts, Python [int()]). *)
Definition trunc (x : spec_float) : option Z :=
  match x with
  | S754_zero _ => Some 0
  | S754_finite s m e =>
      let a := Z.shiftl (Zpos m) e in Some (if s then - a else a)
  | _ => None
  end.

(** A C [int]: wrap-around modulo 2^32. *)
Definition wrap32 (z : Z) : Z := (z + 2 ^ 31) mod 2 ^ 32 - 2 ^ 31.

Definition int_min : Z := - 2 ^ 31.

Definition in_i32 (z : Z) : bool := (int_min <=? z) && (z <? 2 ^ 31).

(** [cvttss2si]: truncation to a 32-bit integer; NaN, infinities and
    values out of range give [INT_MIN]. *)
Definition cvtt_i32 (x : spec_float) : Z :=
  match trunc x with
  | Some z => if in_i32 z then z else int_min
  | None => int_min
  end.

(** [(UINT8)x] of a float: [cvttss2si], then the low byte. *)
Definition u8_cast (x : spec_float) : Z := cvtt_i32 x mod 256.

(** [cvRound] of a float ([cvtss2si]): round half to even to a 32-bit
    integer; NaN, infinities and values out of range give [INT_MIN]. *)
Definition cv_round (x : spec_float) : Z :=
  match to_Q x with
  | Some q => let z := rint q in if in_i32 z then z else int_min
  | None => int_min
  end.

End Fp.

(** ** scikit-image dtype conversions *)

Module Sk.

(** [img_as_float] on a uint8 array: [v / 255] as float64. *)
Definition img_as_float (img : image) : fimage :=
  imap (pmap (fun v => inject_Z v / inject_Z 255)%Q) img.

(** [np.clip(x, 0, 1)] elementwise. *)
Definition clip01 (x : Q) : Q :=
  if Qle_bool x 0 then 0%Q else if Qle_bool 1 x then 1%Q else x.

Definition in_pm1 (x : Q) : bool := Qle_bool (-1) x && Qle_bool x 1.

Definition zero_size_msg : string :=
  "zero-size array to reduction operation minimum which has no identity".

Definition range_msg : string := "Images of type float must be between -1 and 1.".

(** [img_as_ubyte] on a float array ([_convert]): [np.min(image)] of an
    array with no element raises ValueError; values outside [-1, 1] are
    refused with a ValueError; otherwise the values are multiplied by 255,
    rounded with [np.rint] and clipped to the uint8 range.  [inl msg] is
    the ValueError. *)
Definition img_as_ubyte (fi : fimage) : string + image :=
  match concat fi with
  | [] => inl zero_size_msg
  | _ =>
      if iforall (pforall in_pm1) fi
      then inr (imap (pmap (fun x => clamp8 (rint (x * inject_Z 255)%Q))) fi)
      else inl range_msg
  end.

End Sk.

(** ** Pillow: [Image.blend] and the [ImageEnhance] enhancers *)

Module Pil.

(** One channel of libImaging's [ImagingBlend] with the float [alpha]:
    [in1 + alpha * (in2 - in1)] in float; for [0 <= alpha <= 1] it is
    cast to [UINT8], otherwise clipped to [0, 255] first. *)
Definition blend_ch (alpha : spec_float) (a b : Z) : Z :=
  let temp := Fp.add32 (Fp.of_Z32 a) (Fp.mul32 alpha (Fp.of_Z32 (b - a))) in
  if SFleb Fp.zero32 alpha && SFleb alpha Fp.one32 then Fp.u8_cast temp
  else if SFleb temp Fp.zero32 then 0
  else if SFleb (Fp.of_Z32 255) temp then 255
  else Fp.u8_cast temp.

Definition blend_px (alpha : spec_float) (p q : pixel) : pixel :=
  let '(r1, g1, b1) := p in
  let '(r2, g2, b2) := q in
  (blend_ch alpha r1 r2, blend_ch alpha g1 g2, blend_ch alpha b1 b2).

(** [Image.blend(im1, im2, alpha)]: size mismatch is a ValueError
    ([None]); the C code gets [(float)alpha], and returns copies of [im1]
    and [im2] when that float is 0 or 1. *)
Definition blend (im1 im2 : image) (alpha : Q) : option image :=
  if list_eq_dec Nat.eq_dec (shape im1) (shape im2) then
  let a := Fp.of_Q32 alpha in
  if SFeqb a Fp.zero32 then Some im1
  else if SFeqb a Fp.one32 then Some im2
  else Some (zipw (zipw (blend_px a)) im1 im2)
  else None.

(** [convert("L")] of one RGB pixel (libImaging's [L24]). *)
Definition l24 (p : pixel) : Z :=
  let '(r, g, b) := p in
  Z.shiftr (r * 19595 + g * 38470 + b * 7471 + 32768) 16.

(** [ImageEnhance.Brightness]: degenerate = [Image.new(mode, size, 0)]. *)
Definition brightness_degenerate (img : image) : image :=
  imap (fun _ => (0, 0, 0)) img.

(** [ImageEnhance.Color]: degenerate = [image.convert("L").convert(mode)]. *)
Definition color_degenerate (img : image) : image :=
  imap (fun p => let l := l24 p in (l, l, l)) img.

(** [Image.histogram()] of an L image: the count of value [j]. *)
Definition histogram (ls : list Z) (j : Z) : Z :=
  Z.of_nat (length (filter (Z.eqb j) ls)).

(** [int(ImageStat.Stat(L).mean[0] + 0.5)]: [_getsum] adds [j * h[j]]
    for [j] in [0..255] to the float [0.0], [_getmean] divides by the
    pixel count.  With no pixels the degenerate image has no pixels either
    and the mean is not used. *)
Definition contrast_mean (img : image) : Z :=
  let ls := concat (imap l24 img) in
  let n := Z.of_nat (length ls) in
  let sum := fold_left (fun acc j => Fp.add64 acc (Fp.of_Z64 (j * histogram ls j)))
                       (map Z.of_nat (seq 0 256)) Fp.zero64 in
  if n =? 0 then 0 else
  match Fp.trunc (Fp.add64 (Fp.div64 sum (Fp.of_Z64 n)) Fp.half64) with
  | Some m => m
  | None => 0
  end.

(** [ImageEnhance.Contrast]: [Image.new("L", size, mean)] (the fill
    colour is clipped to [0, 255]) converted to RGB. *)
Definition contrast_degenerate (img : image) : image :=
  let m := clamp8 (contrast_mean img) in
  imap (fun _ => (m, m, m)) img.

(** [ImageEnhance.Sharpness]: degenerate = [image.filter(SMOOTH)]; the
    filter builds an image of the same size, one output pixel per input
    position, and writes [clip8] of the kernel sum, that is [clamp8] of
    the sum truncated toward zero ([smooth_px]). *)
Fixpoint mapi_from {A B : Type} (f : nat -> A -> B) (i : nat) (l : list A)
  : list B :=
  match l with [] => [] | x :: t => f i x :: mapi_from f (S i) t end.

Definition mapi {A B : Type} (f : nat -> A -> B) (l : list A) : list B :=
  mapi_from f 0 l.

Definition sharpness_degenerate (smooth_px : image -> nat -> nat -> pixel)
  (img : image) : image :=
  mapi (fun i row => mapi (fun j _ => pmap clamp8 (smooth_px img i j)) row) img.

(** [_Enhance.enhance(factor) = Image.blend(degenerate, image, factor)]. *)
Definition enhance (degenerate : image -> image) (img : image)
  (factor : Q) : option image :=
  blend (degenerate img) img factor.

End Pil.

(** ** OpenCV: colour conversion and [equalizeHist] (8-bit paths) *)

Module Cv.

(** [CV_DESCALE(x, 14)]. *)
Definition descale (x : Z) : Z := Z.shiftr (x + 8192) 14.

(** [cvtColor(arr, COLOR_RGB2YCrCb)] on one pixel, fixed point. *)
Definition rgb2ycrcb_px (p : pixel) : pixel :=
  let '(r, g, b) := p in
  let y := descale (r * 4899 + g * 9617 + b * 1868) in
  (clamp8 y,
   clamp8 (descale ((r - y) * 11682 + 128 * 16384)),
   clamp8 (descale ((b - y) * 9241 + 128 * 16384))).

(** [cvtColor(ycrcb, COLOR_YCrCb2RGB)] on one pixel, fixed point. *)
Definition ycrcb2rgb_px (p : pixel) : pixel :=
  let '(y, cr, cb) := p in
  (clamp8 (y + descale ((cr - 128) * 22987)),
   clamp8 (y + descale ((cb - 128) * (-5636) + (cr - 128) * (-11698))),
   clamp8 (y + descale ((cb - 128) * 29049))).

(** [cvtColor] asserts [!_src.empty()]: an array with no pixel raises
    cv2.error ([None]). *)
Definition cvt_color (f : pixel -> pixel) (img : image) : option image :=
  match concat img with
  | [] => None
  | _ => Some (imap f img)
  end.

Definition empty_assert : string :=
  "(-215:Assertion failed) !_src.empty() in function 'cvtColor'".

Definition ch0 (p : pixel) : Z := let '(c, _, _) := p in c.

Definition chroma (p : pixel) : Z * Z := let '(_, cr, cb) := p in (cr, cb).

(** [ycrcb[:, :, 0] = plane]: channel 0 of every pixel replaced. *)
Definition set_ch0 (img : image) (plane : gray) : image :=
  zipw (zipw (fun p y => let '(_, cr, cb) := p in (y, cr, cb))) img plane.

(** [hist[v]], an [int]. *)
Definition hist (vals : list Z) (v : Z) : Z :=
  Fp.wrap32 (Z.of_nat (length (filter (Z.eqb v) vals))).

(** [while (!hist[i]) ++i;]: the first intensity with a non-empty bin. *)
Definition first_bin (vals : list Z) : Z :=
  match find (fun v => negb (hist vals v =? 0)) (map Z.of_nat (seq 0 256)) with
  | Some v => v
  | None => 0
  end.

(** [equalizeHist] on an 8-bit plane.  An empty plane is returned as is;
    [total = (int)src.total()]; if the first occupied bin [i0] holds every
    pixel the plane is filled with [i0]; otherwise
    [scale = 255.f / (total - hist[i0])] in float, [lut[i0] = 0] and a bin
    [v > i0] maps to [saturate_cast<uchar>(sum * scale)], [sum] the int
    count of the pixels in [(i0, v]] ([cvRound], then clipping).  Bins
    below [i0] hold no pixel. *)
Definition equalize_hist (g : gray) : gray :=
  let vals := concat g in
  if Nat.eqb (length vals) 0 then g else
  let total := Fp.wrap32 (Z.of_nat (length vals)) in
  let i0 := first_bin vals in
  if hist vals i0 =? total then imap (fun _ => i0) g else
  let scale := Fp.div32 (Fp.of_Z32 255) (Fp.of_Z32 (Fp.wrap32 (total - hist vals i0))) in
  let lut v :=
    if v <=? i0 then 0
    else
      let sum := Fp.wrap32 (Z.of_nat (length
                   (filter (fun x => (i0 <? x) && (x <=? v)) vals))) in
      clamp8 (Fp.cv_round (Fp.mul32 (Fp.of_Z32 sum) scale)) in
  imap lut g.

End Cv.

(** ** Python objects, the console and the file system *)

Inductive buf : Type :=
| BU8 (i : image)     (* uint8 RGB array or PIL image *)
| BF (f : fimage)     (* float64 array *)
| BG (g : gray).      (* uint8 single-channel array *)

Inductive exn : Type :=
| EOFError
| ValueError (msg : string)
| Cv2Error (msg : string)
| TypeError.

Inductive save_opt : Type :=
| OQuality (q : Z)
| OOptimize (b : bool)
| OSubsampling (s : Z)
| OCompressLevel (c : Z).

Inductive event : Type :=
| EPrompt (s : string)                          (* prompt written by input() *)
| EPrint (s : string)                           (* print() *)
| EShow (i : image)                             (* Image.show() *)
| ESave (path : string) (opts : list save_opt) (i : image).  (* file written *)

Record state : Type := mkState {
  heap : list buf;
  stdin : list string;
  stdout : list event
}.

Inductive outcome (A : Type) : Type :=
| Ret (a : A) (s : state)
| Raise (e : exn) (s : state).
Arguments Ret {A} a s.
Arguments Raise {A} e s.

Definition M (A : Type) : Type := state -> outcome A.

Definition ret {A : Type} (a : A) : M A := fun s => Ret a s.

Definition raise {A : Type} (e : exn) : M A := fun s => Raise e s.

Definition bind {A B : Type} (m : M A) (k : A -> M B) : M B :=
  fun s => match m s with Ret a s' => k a s' | Raise e s' => Raise e s' end.

Notation "x <- m ;; k" := (bind m (fun x => k))
  (at level 61, m at next level, right associativity).
Notation "m ;; k" := (bind m (fun _ : unit => k))
  (at level 61, right associativity).

Fixpoint upd {A : Type} (l : list A) (n : nat) (a : A) : list A :=
  match l, n with
  | [], _ => []
  | _ :: t, O => a :: t
  | x :: t, S n' => x :: upd t n' a
  end.

(** A fresh object: its location is the current size of the heap. *)
Definition alloc (b : buf) : M nat :=
  fun s => Ret (length (heap s)) (mkState (heap s ++ [b]) (stdin s) (stdout s)).

Definition store (l : nat) (b : buf) : M unit :=
  fun s => Ret tt (mkState (upd (heap s) l b) (stdin s) (stdout s)).

Definition load_u8 (l : nat) : M image :=
  fun s => match nth_error (heap s) l with
           | Some (BU8 i) => Ret i s | _ => Raise TypeError s end.

Definition load_f (l : nat) : M fimage :=
  fun s => match nth_error (heap s) l with
           | Some (BF f) => Ret f s | _ => Raise TypeError s end.

Definition load_g (l : nat) : M gray :=
  fun s => match nth_error (heap s) l with
           | Some (BG g) => Ret g s | _ => Raise TypeError s end.

Definition emit (e : event) : M unit :=
  fun s => Ret tt (mkState (heap s) (stdin s) (stdout s ++ [e])).

(** [input(prompt)]: writes the prompt, reads a line; EOFError at the end
    of standard input. *)
Definition input (prompt : string) : M string :=
  emit (EPrompt prompt);;
  fun s => match stdin s with
           | [] => Raise EOFError s
           | x :: t => Ret x (mkState (heap s) t (stdout s))
           end.

(** [try: m except Exception as e: h(e)]. *)
Definition catch {A : Type} (m : M A) (h : exn -> M A) : M A :=
  fun s => match m s with Ret a s' => Ret a s' | Raise e s' => h e s' end.

(** [str(e)]. *)
Definition exn_str (e : exn) : string :=
  match e with
  | ValueError msg => msg
  | Cv2Error msg => msg
  | _ => EmptyString
  end.

Definition lift {A : Type} (o : option A) (e : exn) : M A :=
  match o with Some a => ret a | None => raise e end.

(** A library call that raises [ValueError(msg)] on [inl msg]. *)
Definition lift_r {A : Type} (o : string + A) : M A :=
  match o with inl msg => raise (ValueError msg) | inr a => ret a end.

(** ** The program *)

(** What the program takes from its environment: Python's [float()],
    the numeric curves of [exposure.adjust_gamma] and [exposure.adjust_log]
    on one normalized value, the 3x3 SMOOTH kernel sum at a position
    (truncated toward zero, before libImaging's [clip8]), the decoder behind
    [Image.open(path).convert('RGB')] and whether [Image.save] recognises
    the format of a path. *)
Record Env : Type := mkEnv {
  parse_float : string -> option Q;
  gamma_curve : Q -> Q -> Q;
  log_curve : Q -> Q -> Q;
  smooth_px : image -> nat -> nat -> pixel;
  load_file : string -> string + image;
  pil_accepts : string -> bool
}.

Fixpoint last_field (s cur : string) : string :=
  match s with
  | EmptyString => cur
  | String c t =>
      if Ascii.eqb c "." then last_field t EmptyString
      else last_field t (cur ++ String c EmptyString)%string
  end.

Definition lower_char (c : ascii) : ascii :=
  let n := nat_of_ascii c in
  if (65 <=? n)%nat && (n <=? 90)%nat then ascii_of_nat (n + 32) else c.

Fixpoint lower (s : string) : string :=
  match s with
  | EmptyString => EmptyString
  | String c t => String (lower_char c) (lower t)
  end.

Definition nl : string := String (ascii_of_nat 10) EmptyString.

Definition menu_text : string :=
  (nl ++ "1: Gamma " ++ nl ++ "2: HistEq " ++ nl ++ "3: Brightness " ++
   nl ++ "4: Contrast " ++ nl ++ "5: Sharpness " ++ nl ++ "6: Saturation " ++
   nl ++ "7: Exposure " ++ nl ++ "8: Show " ++ nl ++ "9: Save " ++ nl ++
   "0: Exit")%string.

Section Program.

Variable E : Env.

(** [load_image(path)]: [Image.open(path).convert('RGB')], a new object. *)
Definition load_image (path : string) : M nat :=
  match load_file E path with
  | inl msg => raise (ValueError msg)
  | inr img => alloc (BU8 img)
  end.

(** [ext = path.split('.')[-1].lower()]. *)
Definition ext_of (path : string) : string := lower (last_field path EmptyString).

(** The keyword arguments [save_image] passes to [image.save]. *)
Definition save_options (ext : string) (quality : Z) : list save_opt :=
  if String.eqb ext "jpg" || String.eqb ext "jpeg"
  then [OQuality quality; OOptimize true; OSubsampling 0]
  else if String.eqb ext "png" then [OCompressLevel 1]
  else [].

Definition save_image (im : nat) (path : string) (quality : Z) : M unit :=
  img <- load_u8 im;;
  (if pil_accepts E path
   then emit (ESave path (save_options (ext_of path) quality) img)
   else raise (ValueError "unknown file extension"));;
  emit (EPrint ("Saved: " ++ path)%string).

Definition apply_gamma (im : nat) (gamma : Q) : M nat :=
  a0 <- load_u8 im;; arr <- alloc (BU8 a0);;                 (* np.array *)
  a <- load_u8 arr;; fl <- alloc (BF (Sk.img_as_float a));;   (* img_as_float *)
  f <- load_f fl;;
  (if Qle_bool 0 gamma then ret tt
   else raise (ValueError "Gamma should be a non-negative real number."));;
  c <- alloc (BF (imap (pmap (gamma_curve E gamma)) f));;     (* adjust_gamma *)
  cf <- load_f c;; cl <- alloc (BF (imap (pmap Sk.clip01) cf));;  (* np.clip *)
  cc <- load_f cl;;
  u <- lift_r (Sk.img_as_ubyte cc);;
  ub <- alloc (BU8 u);;                                       (* img_as_ubyte *)
  ui <- load_u8 ub;; alloc (BU8 ui).                          (* Image.fromarray *)

Definition apply_hist_eq (im : nat) : M nat :=
  a0 <- load_u8 im;; arr <- alloc (BU8 a0);;                 (* np.array *)
  a <- load_u8 arr;;
  yv <- lift (Cv.cvt_color Cv.rgb2ycrcb_px a) (Cv2Error Cv.empty_assert);;
  y <- alloc (BU8 yv);;                                       (* cvtColor *)
  yc <- load_u8 y;; e <- alloc (BG (Cv.equalize_hist (imap Cv.ch0 yc)));;
  eg <- load_g e;; yc' <- load_u8 y;;
  store y (BU8 (Cv.set_ch0 yc' eg));;                         (* ycrcb[:, :, 0] = ... *)
  y2 <- load_u8 y;;
  rv <- lift (Cv.cvt_color Cv.ycrcb2rgb_px y2) (Cv2Error Cv.empty_assert);;
  r <- alloc (BU8 rv);;                                       (* cvtColor *)
  ri <- load_u8 r;; alloc (BU8 ri).                           (* Image.fromarray *)

(** [ImageEnhance.<Enhancer>(image).enhance(factor)]: the enhancer builds
    its degenerate image, [enhance] blends it with the image. *)
Definition enhance_op (degenerate : image -> image) (im : nat)
  (factor : Q) : M nat :=
  img <- load_u8 im;;
  dl <- alloc (BU8 (degenerate img));;
  dd <- load_u8 dl;;
  out <- lift (Pil.blend dd img factor) (ValueError "images do not match");;
  alloc (BU8 out).

Definition adjust_brightness (im : nat) (factor : Q) : M nat :=
  enhance_op Pil.brightness_degenerate im factor.

Definition adjust_contrast (im : nat) (factor : Q) : M nat :=
  enhance_op Pil.contrast_degenerate im factor.

Definition adjust_sharpness (im : nat) (factor : Q) : M nat :=
  enhance_op (Pil.sharpness_degenerate (smooth_px E)) im factor.

Definition adjust_saturation (im : nat) (factor : Q) : M nat :=
  enhance_op Pil.color_degenerate im factor.

Definition adjust_exposure (im : nat) (gain : Q) : M nat :=
  a0 <- load_u8 im;; arr <- alloc (BU8 a0);;                 (* np.array *)
  a <- load_u8 arr;; fl <- alloc (BF (Sk.img_as_float a));;   (* img_as_float *)
  f <- load_f fl;;
  c <- alloc (BF (imap (pmap (log_curve E gain)) f));;        (* adjust_log *)
  cf <- load_f c;; cl <- alloc (BF (imap (pmap Sk.clip01) cf));;  (* np.clip *)
  cc <- load_f cl;;
  u <- lift_r (Sk.img_as_ubyte cc);;
  ub <- alloc (BU8 u);;                                       (* img_as_ubyte *)
  ui <- load_u8 ub;; alloc (BU8 ui).                          (* Image.fromarray *)

(** [float(input(prompt))]. *)
Definition read_float (prompt : string) : M Q :=
  s <- input prompt;;
  lift (parse_float E s) (ValueError "could not convert string to float").

Definition show (im : nat) : M unit := img <- load_u8 im;; emit (EShow img).

(** The body of [while True] after [choice] was read and is not ["0"]:
    returns the new [current] and [modified]. *)
Definition dispatch (choice : string) (current : nat) (modified : bool)
  : M (nat * bool) :=
  if String.eqb choice "1" then
    g <- read_float "Gamma [1]: ";; c <- apply_gamma current g;; ret (c, true)
  else if String.eqb choice "2" then
    c <- apply_hist_eq current;; ret (c, true)
  else if String.eqb choice "3" then
    f <- read_float "Brightness [1]: ";; c <- adjust_brightness current f;; ret (c, true)
  else if String.eqb choice "4" then
    f <- read_float "Contrast [1]: ";; c <- adjust_contrast current f;; ret (c, true)
  else if String.eqb choice "5" then
    f <- read_float "Sharpness [1]: ";; c <- adjust_sharpness current f;; ret (c, true)
  else if String.eqb choice "6" then
    f <- read_float "Saturation [1]: ";; c <- adjust_saturation current f;; ret (c, true)
  else if String.eqb choice "7" then
    g <- read_float "Exposure [1]: ";; c <- adjust_exposure current g;; ret (c, true)
  else if String.eqb choice "8" then
    show current;; ret (current, modified)
  else if String.eqb choice "9" then
    (if modified then
       p <- input "Save as: ";; save_image current p 100;; ret (current, false)
     else emit (EPrint "Nothing to save.");; ret (current, modified))
  else emit (EPrint "Invalid.");; ret (current, modified).

(** One pass of [while True]; [None] is [break] (choice ["0"]). *)
Definition iteration (current : nat) (modified : bool) : M (option (nat * bool)) :=
  emit (EPrint menu_text);;
  choice <- input "Choose: ";;
  if String.eqb choice "0" then ret None else
  r <- dispatch choice current modified;;
  match r with
  | (c, m) =>
      (if m then emit (EPrint "Applied.");; show c else ret tt);;
      ret (Some (c, m))
  end.

(** The loop, with fuel.  Every pass reads a line, so [main] gives it more
    fuel than there are input lines and it never runs out. *)
Fixpoint loop (fuel : nat) (current : nat) (modified : bool) : M unit :=
  match fuel with
  | O => ret tt
  | S n =>
      r <- iteration current modified;;
      match r with
      | None => ret tt
      | Some (c, m) => loop n c m
      end
  end.

Definition main : M unit :=
  path <- input "Path: ";;
  r <- catch (img <- load_image path;; ret (Some img))
             (fun e => emit (EPrint ("Error loading image: " ++ exn_str e)%string);;
                       ret None);;
  match r with
  | None => ret tt                                            (* return *)
  | Some img =>
      i <- load_u8 img;; current <- alloc (BU8 i);;           (* img.copy() *)
      fun s => loop (S (length (stdin s))) current false s
  end.

End Program.

(** The process exit status: a normal return is 0, an uncaught exception 1. *)
Definition exit_code {A : Type} (o : outcome A) : Z :=
  match o with Ret _ _ => 0 | Raise _ _ => 1 end.

Definition run_main (E : Env) (ins : list string) : outcome unit :=
  main E (mkState [] ins []).

(** ** A concrete environment, to run the model *)

Definition digit (c : ascii) : option Z :=
  let n := nat_of_ascii c in
  if (48 <=? n)%nat && (n <=? 57)%nat then Some (Z.of_nat n - 48) else None.

(** Decimal literals [ddd] and [ddd.ddd]; everything else is refused. *)
Fixpoint parse_dec (s : string) (n d : Z) (dot seen : bool) : option Q :=
  match s with
  | EmptyString => if seen then Some (Qmake n (Z.to_pos d)) else None
  | String c t =>
      if Ascii.eqb c "." then (if dot then None else parse_dec t n d true seen)
      else match digit c with
           | Some k => parse_dec t (10 * n + k) (if dot then 10 * d else d) dot true
           | None => None
           end
  end.

Definition demo_img : image := [[(10, 20, 30); (200, 100, 50)]].

Definition demo_env : Env := {|
  parse_float := fun s => parse_dec s 0 1 false false;
  gamma_curve := fun g x => (x * x)%Q;
  log_curve := fun g x => (g * x)%Q;
  smooth_px := fun img i j => nth j (nth i img []) (0, 0, 0);
  load_file := fun p => if String.eqb p "a.png" then inr demo_img
                        else inl "No such file or directory"%string;
  pil_accepts := fun p => let e := ext_of p in
                          String.eqb e "png" || String.eqb e "jpg" || String.eqb e "jpeg"
|}.

(** ** The seven adjustments, as the menu reaches them *)

Inductive adjustment : Type :=
| AGamma (g : Q)
| AHistEq
| ABrightness (f : Q)
| AContrast (f : Q)
| ASharpness (f : Q)
| ASaturation (f : Q)
| AExposure (g : Q).

Definition run_adjustment (E : Env) (a : adjustment) (im : nat) : M nat :=
  match a with
  | AGamma g => apply_gamma E im g
  | AHistEq => apply_hist_eq im
  | ABrightness f => adjust_brightness im f
  | AContrast f => adjust_contrast im f
  | ASharpness f => adjust_sharpness E im f
  | ASaturation f => adjust_saturation im f
  | AExposure g => adjust_exposure E im g
  end.

Definition is_float (b : buf) : bool :=
  match b with BF _ => true | _ => false end.

(** ** Reasoning about heap programs *)

Definition wp {A : Type} (m : M A) (P : A -> state -> Prop) (PE : state -> Prop)
  (s : state) : Prop :=
  match m s with Ret a s' => P a s' | Raise _ s' => PE s' end.

Lemma nth_error_snoc_len {A : Type} (l : list A) (x : A) :
  nth_error (l ++ [x]) (length l) = Some x.
Proof. rewrite nth_error_app2 by lia. rewrite Nat.sub_diag. reflexivity. Qed.

Lemma nth_error_snoc_lt {A : Type} (l : list A) (x : A) (i : nat) :
  (i < length l)%nat -> nth_error (l ++ [x]) i = nth_error l i.
Proof. intros H. apply nth_error_app1. exact H. Qed.

Lemma length_snoc {A : Type} (l : list A) (x : A) :
  length (l ++ [x]) = S (length l).
Proof. rewrite length_app. simpl. lia. Qed.

Lemma nth_error_some_len {A : Type} (l : list A) (n : nat) (x : A) :
  nth_error l n = Some x -> (n < length l)%nat.
Proof. intros H. apply nth_error_Some. congruence. Qed.

Lemma length_upd {A : Type} (l : list A) (n : nat) (a : A) :
  length (upd l n a) = length l.
Proof. revert n; induction l as [|x t IH]; intros [|n]; simpl; auto. Qed.

Lemma nth_error_upd_ne {A : Type} (l : list A) (n i : nat) (a : A) :
  i <> n -> nth_error (upd l n a) i = nth_error l i.
Proof.
  revert n i; induction l as [|x t IH]; intros [|n] [|i] H; simpl; auto;
    try congruence.
Qed.

Lemma nth_error_upd_eq {A : Type} (l : list A) (n : nat) (a : A) :
  (n < length l)%nat -> nth_error (upd l n a) n = Some a.
Proof.
  revert n; induction l as [|x t IH]; intros [|n] H; simpl in *; try lia; auto.
  apply IH. lia.
Qed.

Lemma wp_bind {A B : Type} (m : M A) (k : A -> M B) P PE s :
  wp m (fun a s' => wp (k a) P PE s') PE s -> wp (bind m k) P PE s.
Proof. unfold wp, bind. destruct (m s); auto. Qed.

Lemma wp_ret {A : Type} (a : A) P PE s : P a s -> wp (ret a) P PE s.
Proof. auto. Qed.

Lemma wp_raise {A : Type} (e : exn) (P : A -> state -> Prop) PE s :
  PE s -> wp (raise e) P PE s.
Proof. auto. Qed.

Lemma wp_lift {A : Type} (o : option A) e P PE s :
  (forall a, o = Some a -> P a s) -> PE s -> wp (lift o e) P PE s.
Proof. destruct o; unfold wp; simpl; auto. Qed.

Lemma wp_lift_r {A : Type} (o : string + A) P PE s :
  (forall a, o = inr a -> P a s) -> PE s -> wp (lift_r o) P PE s.
Proof. destruct o; unfold wp; simpl; auto. Qed.

Lemma wp_load_u8 l P PE s :
  (forall i, nth_error (heap s) l = Some (BU8 i) -> P i s) -> PE s ->
  wp (load_u8 l) P PE s.
Proof.
  unfold wp, load_u8. destruct (nth_error (heap s) l) as [[]|] eqn:H; auto.
Qed.

Lemma wp_load_f l P PE s :
  (forall f, nth_error (heap s) l = Some (BF f) -> P f s) -> PE s ->
  wp (load_f l) P PE s.
Proof.
  unfold wp, load_f. destruct (nth_error (heap s) l) as [[]|] eqn:H; auto.
Qed.

Lemma wp_load_g l P PE s :
  (forall g, nth_error (heap s) l = Some (BG g) -> P g s) -> PE s ->
  wp (load_g l) P PE s.
Proof.
  unfold wp, load_g. destruct (nth_error (heap s) l) as [[]|] eqn:H; auto.
Qed.

(** The frame of a run that started on heap [h0]: the old cells are
    untouched and every cell created since satisfies [ok]. *)
Section Frame.

Variable h0 : list buf.
Variable ok : buf -> Prop.

Definition frame (s : state) : Prop :=
  (length h0 <= length (heap s))%nat /\
  (forall i, (i < length h0)%nat -> nth_error (heap s) i = nth_error h0 i) /\
  (forall i b, (length h0 <= i)%nat -> nth_error (heap s) i = Some b -> ok b).

Lemma frame_start ins outs : frame (mkState h0 ins outs).
Proof.
  repeat split; simpl; auto.
  intros i b Hi Hb. apply nth_error_some_len in Hb. lia.
Qed.

Lemma wp_alloc b P PE s :
  frame s -> ok b ->
  (forall s', frame s' -> nth_error (heap s') (length (heap s)) = Some b ->
     (length h0 <= length (heap s))%nat -> P (length (heap s)) s') ->
  wp (alloc b) P PE s.
Proof.
  intros [H1 [H2 H3]] Hb K. unfold wp, alloc. apply K; simpl.
  - repeat split; simpl.
    + rewrite length_snoc. lia.
    + intros i Hi. rewrite nth_error_snoc_lt by lia. auto.
    + intros i b' Hi Hb'.
      destruct (Nat.eq_dec i (length (heap s))) as [->|Hne].
      * rewrite nth_error_snoc_len in Hb'. congruence.
      * assert (i < length (heap s))%nat.
        { apply nth_error_some_len in Hb'. rewrite length_snoc in Hb'. lia. }
        rewrite nth_error_snoc_lt in Hb' by lia. eauto.
  - apply nth_error_snoc_len.
  - exact H1.
Qed.

Lemma wp_store l b P PE s :
  frame s -> ok b -> (length h0 <= l)%nat ->
  (forall s', frame s' -> P tt s') -> wp (store l b) P PE s.
Proof.
  intros [H1 [H2 H3]] Hb Hl K. unfold wp, store. apply K.
  repeat split; simpl.
  - rewrite length_upd. exact H1.
  - intros i Hi. rewrite nth_error_upd_ne by lia. auto.
  - intros i b' Hi Hb'. destruct (Nat.eq_dec i l) as [->|Hne].
    + assert (l < length (heap s))%nat.
      { apply nth_error_some_len in Hb'. rewrite length_upd in Hb'. lia. }
      rewrite nth_error_upd_eq in Hb' by lia. congruence.
    + rewrite nth_error_upd_ne in Hb' by exact Hne. eauto.
Qed.

End Frame.

Ltac wp_step :=
  match goal with
  | |- wp (bind _ _) _ _ _ => apply wp_bind
  | |- wp (alloc _) _ _ _ =>
      eapply wp_alloc; [eassumption | auto | intros ?s ?Hf ?Hn ?Hl; cbv beta]
  | |- wp (store _ _) _ _ _ =>
      eapply wp_store; [eassumption | auto | lia | intros ?s ?Hf; cbv beta]
  | |- wp (load_u8 _) _ _ _ => apply wp_load_u8; [intros ?i ?Hi; cbv beta | ]
  | |- wp (load_f _) _ _ _ => apply wp_load_f; [intros ?i ?Hi; cbv beta | ]
  | |- wp (load_g _) _ _ _ => apply wp_load_g; [intros ?i ?Hi; cbv beta | ]
  | |- wp (lift _ _) _ _ _ => apply wp_lift; [intros ?a ?Ha; cbv beta | ]
  | |- wp (lift_r _) _ _ _ => apply wp_lift_r; [intros ?a ?Ha; cbv beta | ]
  | |- wp (ret _) _ _ _ => apply wp_ret; cbv beta
  | |- wp (raise _) _ _ _ => apply wp_raise
  | |- wp (if ?c then _ else _) _ _ _ => destruct c
  | |- wp (match ?o with Some _ => _ | None => _ end) _ _ _ => destruct o
  end.

(** What every adjustment leaves behind: the old heap is intact and the
    result is a new 8-bit object. *)
Definition fresh_result (h0 : list buf) (ok : buf -> Prop) (l : nat) (s : state)
  : Prop :=
  frame h0 ok s /\ (length h0 <= l)%nat /\
  exists out, nth_error (heap s) l = Some (BU8 out).

Lemma enhance_op_frame ok deg im f s :
  (forall i, ok (BU8 i)) -> frame (heap s) ok s ->
  wp (enhance_op deg im f) (fresh_result (heap s) ok) (frame (heap s) ok) s.
Proof.
  intros HU Hs. unfold enhance_op.
  repeat wp_step; try eassumption.
  unfold fresh_result. eauto.
Qed.

Lemma apply_hist_eq_frame ok im s :
  (forall i, ok (BU8 i)) -> (forall g, ok (BG g)) -> frame (heap s) ok s ->
  wp (apply_hist_eq im) (fresh_result (heap s) ok) (frame (heap s) ok) s.
Proof.
  intros HU HG Hs. unfold apply_hist_eq.
  repeat wp_step; try eassumption.
  unfold fresh_result. eauto.
Qed.

Lemma apply_gamma_frame E ok im g s :
  (forall i, ok (BU8 i)) -> (forall f, ok (BF f)) -> frame (heap s) ok s ->
  wp (apply_gamma E im g) (fresh_result (heap s) ok) (frame (heap s) ok) s.
Proof.
  intros HU HF Hs. unfold apply_gamma.
  repeat wp_step; try eassumption.
  unfold fresh_result. eauto.
Qed.

Lemma adjust_exposure_frame E ok im g s :
  (forall i, ok (BU8 i)) -> (forall f, ok (BF f)) -> frame (heap s) ok s ->
  wp (adjust_exposure E im g) (fresh_result (heap s) ok) (frame (heap s) ok) s.
Proof.
  intros HU HF Hs. unfold adjust_exposure.
  repeat wp_step; try eassumption.
  unfold fresh_result. eauto.
Qed.

Lemma run_adjustment_frame E a ok im s :
  (forall i, ok (BU8 i)) -> (forall g, ok (BG g)) -> (forall f, ok (BF f)) ->
  frame (heap s) ok s ->
  wp (run_adjustment E a im) (fresh_result (heap s) ok) (frame (heap s) ok) s.
Proof.
  intros HU HG HF Hs.
  destruct a; simpl;
    first [ apply apply_gamma_frame | apply apply_hist_eq_frame
          | apply adjust_exposure_frame | apply enhance_op_frame ]; auto.
Qed.

(** Hist-eq and the four [ImageEnhance] adjustments create no float
    array: every object they allocate is an 8-bit one. *)
Lemma eight_bit_adjustments_frame E a im s :
  (forall g, a <> AGamma g) -> (forall g, a <> AExposure g) ->
  wp (run_adjustment E a im)
     (fresh_result (heap s) (fun b => is_float b = false))
     (frame (heap s) (fun b => is_float b = false)) s.
Proof.
  intros Hg He. destruct s as [h ins outs].
  pose proof (frame_start h (fun b => is_float b = false) ins outs) as Hs.
  destruct a; simpl;
    try (exfalso; eapply Hg; reflexivity); try (exfalso; eapply He; reflexivity);
    first [ apply apply_hist_eq_frame | apply enhance_op_frame ]; auto.
Qed.

(** ** Values computed by the float pipelines *)

(** [img_as_ubyte(np.clip(curve(img_as_float(arr)), 0, 1))], per channel. *)
Definition float_pipeline (curve : Q -> Q) (img : image) : image :=
  imap (pmap (fun v =>
    clamp8 (rint (Sk.clip01 (curve (inject_Z v / inject_Z 255)) * inject_Z 255)%Q)))
    img.

Lemma imap_imap {A B C : Type} (f : B -> C) (g : A -> B) (img : list (list A)) :
  imap f (imap g img) = imap (fun x => f (g x)) img.
Proof.
  unfold imap. rewrite map_map. apply map_ext. intros r. apply map_map.
Qed.

Lemma length_concat_imap {A B : Type} (f : A -> B) (img : list (list A)) :
  length (concat (imap f img)) = length (concat img).
Proof.
  unfold imap. induction img as [|r t IH]; simpl; auto.
  rewrite !length_app, length_map, IH. reflexivity.
Qed.

Lemma concat_imap_nil {A B : Type} (f : A -> B) (img : list (list A)) :
  concat (imap f img) = [] <-> concat img = [].
Proof. rewrite <- !length_zero_iff_nil, length_concat_imap. reflexivity. Qed.

Lemma clip01_range (x : Q) : (0 <= Sk.clip01 x <= 1)%Q.
Proof.
  unfold Sk.clip01.
  destruct (Qle_bool x 0) eqn:H1; [split; discriminate|].
  destruct (Qle_bool 1 x) eqn:H2; [split; discriminate|].
  apply not_true_iff_false in H1, H2. rewrite Qle_bool_iff in H1, H2.
  split; apply Qlt_le_weak; apply Qnot_le_lt; assumption.
Qed.

Lemma clip01_in_pm1 (x : Q) : Sk.in_pm1 (Sk.clip01 x) = true.
Proof.
  destruct (clip01_range x) as [H1 H2]. unfold Sk.in_pm1.
  apply andb_true_intro; split; apply Qle_bool_iff; auto.
  apply Qle_trans with 0%Q; [discriminate | exact H1].
Qed.

Lemma iforall_imap {A B : Type} (p : B -> bool) (f : A -> B) (img : list (list A)) :
  (forall x, p (f x) = true) -> iforall p (imap f img) = true.
Proof.
  intros H. unfold iforall, imap. apply forallb_forall. intros r Hr.
  apply in_map_iff in Hr as [r' [<- _]]. apply forallb_forall. intros x Hx.
  apply in_map_iff in Hx as [x' [<- _]]. apply H.
Qed.

(** The float array [np.clip] returns. *)
Definition clipped (curve : Q -> Q) (img : image) : fimage :=
  imap (pmap Sk.clip01) (imap (pmap curve) (Sk.img_as_float img)).

Lemma ubyte_of_clipped (curve : Q -> Q) (img : image) :
  concat img <> [] -> Sk.img_as_ubyte (clipped curve img) = inr (float_pipeline curve img).
Proof.
  intros Hne. unfold Sk.img_as_ubyte.
  destruct (concat (clipped curve img)) as [|x t] eqn:Hc.
  - exfalso. apply Hne. unfold clipped, Sk.img_as_float in Hc.
    apply concat_imap_nil, concat_imap_nil, concat_imap_nil in Hc. exact Hc.
  - unfold clipped. rewrite iforall_imap.
    + f_equal. unfold float_pipeline, Sk.img_as_float. rewrite !imap_imap.
      unfold imap. apply map_ext. intros r. apply map_ext. intros [[a b] c].
      reflexivity.
    + intros [[a b] c]. simpl. rewrite !clip01_in_pm1. reflexivity.
Qed.

Lemma ubyte_of_empty (fi : fimage) :
  concat fi = [] -> Sk.img_as_ubyte fi = inl Sk.zero_size_msg.
Proof. intros H. unfold Sk.img_as_ubyte. rewrite H. reflexivity. Qed.

Lemma in_u8_clamp8 (v : Z) : in_u8 (clamp8 v) = true.
Proof.
  unfold in_u8, clamp8. apply andb_true_intro; split; apply Z.leb_le; lia.
Qed.

Lemma float_pipeline_u8 (curve : Q -> Q) (img : image) :
  iforall (pforall in_u8) (float_pipeline curve img) = true.
Proof.
  unfold float_pipeline. apply iforall_imap. intros [[a b] c]. simpl.
  rewrite !in_u8_clamp8. reflexivity.
Qed.

Ltac heap_simpl :=
  repeat first
    [ progress cbn [heap stdin stdout]
    | rewrite nth_error_snoc_len
    | rewrite nth_error_snoc_lt by (rewrite ?length_snoc; lia) ].

(** The objects [apply_gamma] and [adjust_exposure] create up to
    [np.clip]: the 8-bit copy and three float arrays. *)
Definition float_cells (curve : Q -> Q) (img : image) : list buf :=
  [BU8 img; BF (Sk.img_as_float img); BF (imap (pmap curve) (Sk.img_as_float img));
   BF (clipped curve img)].

(** The rest of the run once the curve is applied: [img_as_ubyte] and
    [Image.fromarray], or the ValueError of [img_as_ubyte]. *)
Definition float_run (curve : Q -> Q) (img : image) (h : list buf)
  (ins : list string) (outs : list event) : outcome nat :=
  match Sk.img_as_ubyte (clipped curve img) with
  | inr u => Ret (length h + 5)%nat
                 (mkState (h ++ float_cells curve img ++ [BU8 u; BU8 u]) ins outs)
  | inl msg => Raise (ValueError msg) (mkState (h ++ float_cells curve img) ins outs)
  end.

Lemma apply_gamma_value E h ins outs im img g :
  nth_error h im = Some (BU8 img) ->
  apply_gamma E im g (mkState h ins outs) =
  if Qle_bool 0 g then float_run (gamma_curve E g) img h ins outs
  else Raise (ValueError "Gamma should be a non-negative real number.")
         (mkState (h ++ [BU8 img; BF (Sk.img_as_float img)]) ins outs).
Proof.
  intros Hi. unfold apply_gamma, bind, load_u8, load_f, alloc, lift_r, ret, raise.
  simpl. rewrite Hi. heap_simpl.
  destruct (Qle_bool 0 g); simpl.
  - heap_simpl. unfold float_run, float_cells, clipped.
    destruct (Sk.img_as_ubyte _); simpl.
    + cbn [heap stdin stdout]. rewrite <- !app_assoc. reflexivity.
    + heap_simpl. cbn [heap stdin stdout]. rewrite <- !app_assoc. simpl.
      f_equal. rewrite length_app. simpl. lia.
  - rewrite <- app_assoc. reflexivity.
Qed.

Lemma adjust_exposure_value E h ins outs im img g :
  nth_error h im = Some (BU8 img) ->
  adjust_exposure E im g (mkState h ins outs) = float_run (log_curve E g) img h ins outs.
Proof.
  intros Hi. unfold adjust_exposure, bind, load_u8, load_f, alloc, lift_r, ret, raise.
  simpl. rewrite Hi. heap_simpl. unfold float_run, float_cells, clipped.
  destruct (Sk.img_as_ubyte _); simpl.
  - cbn [heap stdin stdout]. rewrite <- !app_assoc. reflexivity.
  - heap_simpl. cbn [heap stdin stdout]. rewrite <- !app_assoc. simpl.
    f_equal. rewrite length_app. simpl. lia.
Qed.

Lemma float_run_ok curve img h ins outs :
  concat img <> [] ->
  float_run curve img h ins outs =
  Ret (length h + 5)%nat
      (mkState (h ++ float_cells curve img ++
                [BU8 (float_pipeline curve img); BU8 (float_pipeline curve img)]) ins outs).
Proof. intros Hne. unfold float_run. rewrite ubyte_of_clipped by exact Hne. reflexivity. Qed.

Lemma float_run_empty curve img h ins outs :
  concat img = [] ->
  float_run curve img h ins outs =
  Raise (ValueError Sk.zero_size_msg) (mkState (h ++ float_cells curve img) ins outs).
Proof.
  intros He. unfold float_run. rewrite ubyte_of_empty; [reflexivity|].
  unfold clipped, Sk.img_as_float. apply concat_imap_nil, concat_imap_nil, concat_imap_nil.
  exact He.
Qed.

(** The claim that every adjustment goes through a float array, stated on
    one run: some object created by the run is a float array. *)
Definition allocates_float (s s' : state) : Prop :=
  exists i f, (length (heap s) <= i)%nat /\ nth_error (heap s') i = Some (BF f).

(** ** Shapes *)

Lemma shape_imap {A B : Type} (f : A -> B) (img : list (list A)) :
  shape (imap f img) = shape img.
Proof.
  unfold shape, imap. rewrite map_map. apply map_ext. intros r. apply length_map.
Qed.

Lemma length_mapi_from {A B : Type} (f : nat -> A -> B) i l :
  length (Pil.mapi_from f i l) = length l.
Proof. revert i; induction l; intros i; simpl; auto. Qed.

Lemma shape_mapi {A B : Type} (f : nat -> nat -> A -> B) (img : list (list A)) :
  shape (Pil.mapi (fun i row => Pil.mapi (fun j x => f i j x) row) img) = shape img.
Proof.
  unfold Pil.mapi at 1. generalize 0%nat.
  induction img as [|r t IH]; intros n; simpl; auto.
  unfold shape in *. simpl. rewrite IH. unfold Pil.mapi.
  rewrite length_mapi_from. reflexivity.
Qed.

(** Two arrays of one shape have pixels together or not at all. *)
Lemma concat_nil_shape {A B : Type} (a : list (list A)) (b : list (list B)) :
  shape a = shape b -> concat a = [] -> concat b = [].
Proof.
  intros Hs Ha. apply length_zero_iff_nil. apply (f_equal (@length A)) in Ha.
  rewrite length_concat in Ha |- *. unfold shape in Hs. rewrite <- Hs. exact Ha.
Qed.

(** [(float)1.0] is neither [0.0] nor different from [1.0]. *)
Lemma of_Q32_one : SFeqb (Fp.of_Q32 1) Fp.zero32 = false /\ SFeqb (Fp.of_Q32 1) Fp.one32 = true.
Proof. vm_compute. split; reflexivity. Qed.

Lemma of_Q32_zero : SFeqb (Fp.of_Q32 0) Fp.zero32 = true.
Proof. vm_compute. reflexivity. Qed.

Lemma blend_one d img :
  shape d = shape img -> Pil.blend d img 1 = Some img.
Proof.
  intros H. unfold Pil.blend. destruct of_Q32_one as [H0 H1].
  destruct (list_eq_dec Nat.eq_dec (shape d) (shape img)); [|contradiction].
  rewrite H0, H1. reflexivity.
Qed.

Lemma blend_zero d img :
  shape d = shape img -> Pil.blend d img 0 = Some d.
Proof.
  intros H. unfold Pil.blend.
  destruct (list_eq_dec Nat.eq_dec (shape d) (shape img)); [|contradiction].
  rewrite of_Q32_zero. reflexivity.
Qed.

Lemma enhance_op_value deg h ins outs im img f :
  nth_error h im = Some (BU8 img) ->
  enhance_op deg im f (mkState h ins outs) =
  match Pil.blend (deg img) img f with
  | Some out => Ret (S (length h)) (mkState (h ++ [BU8 (deg img); BU8 out]) ins outs)
  | None => Raise (ValueError "images do not match") (mkState (h ++ [BU8 (deg img)]) ins outs)
  end.
Proof.
  intros Hi. unfold enhance_op, bind, load_u8, alloc, lift, ret, raise.
  simpl. rewrite Hi. simpl. heap_simpl.
  destruct (Pil.blend (deg img) img f); simpl; [|reflexivity].
  rewrite length_snoc, <- app_assoc. reflexivity.
Qed.

Lemma enhance_op_one deg h ins outs im img :
  nth_error h im = Some (BU8 img) -> shape (deg img) = shape img ->
  enhance_op deg im 1 (mkState h ins outs) =
  Ret (S (length h)) (mkState (h ++ [BU8 (deg img); BU8 img]) ins outs).
Proof.
  intros Hi Hs. rewrite (enhance_op_value deg h ins outs im img 1 Hi).
  rewrite blend_one by exact Hs. reflexivity.
Qed.

Lemma upd_snoc_len {A : Type} (l : list A) (x a : A) :
  upd (l ++ [x]) (length l) a = l ++ [a].
Proof. induction l as [|y t IH]; simpl; auto. rewrite IH. reflexivity. Qed.

Lemma upd_snoc_lt {A : Type} (l : list A) (x a : A) (n : nat) :
  (n < length l)%nat -> upd (l ++ [x]) n a = upd l n a ++ [x].
Proof.
  revert n; induction l as [|y t IH]; intros [|n] H; simpl in *; try lia; auto.
  rewrite IH by lia. reflexivity.
Qed.

Definition put_ch0 (p : pixel) (y : Z) : pixel := let '(_, cr, cb) := p in (y, cr, cb).

Lemma set_ch0_rows (y : image) (g : gray) :
  Cv.set_ch0 y g = zipw (zipw put_ch0) y g.
Proof. reflexivity. Qed.

Lemma zipw_put_row_chroma (r : list pixel) (p : list Z) :
  length r = length p -> map Cv.chroma (zipw put_ch0 r p) = map Cv.chroma r.
Proof.
  revert p; induction r as [|x t IH]; intros [|y p] H; simpl in *; try lia; auto.
  rewrite IH by lia. destruct x as [[a b] c]. reflexivity.
Qed.

Lemma zipw_put_row_ch0 (r : list pixel) (p : list Z) :
  length r = length p -> map Cv.ch0 (zipw put_ch0 r p) = p.
Proof.
  revert p; induction r as [|x t IH]; intros [|y p] H; simpl in *; try lia; auto.
  rewrite IH by lia. destruct x as [[a b] c]. reflexivity.
Qed.

Lemma set_ch0_chroma (y : image) (g : gray) :
  shape y = shape g -> imap Cv.chroma (Cv.set_ch0 y g) = imap Cv.chroma y.
Proof.
  rewrite set_ch0_rows. unfold shape, imap.
  revert g; induction y as [|r t IH]; intros [|p g] H; simpl in *; try discriminate;
    auto.
  injection H as H1 H2. rewrite zipw_put_row_chroma, IH by assumption. reflexivity.
Qed.

Lemma set_ch0_ch0 (y : image) (g : gray) :
  shape y = shape g -> imap Cv.ch0 (Cv.set_ch0 y g) = g.
Proof.
  rewrite set_ch0_rows. unfold shape, imap.
  revert g; induction y as [|r t IH]; intros [|p g] H; simpl in *; try discriminate;
    auto.
  injection H as H1 H2. rewrite zipw_put_row_ch0, IH by assumption. reflexivity.
Qed.

Lemma set_ch0_shape (y : image) (g : gray) :
  shape y = shape g -> shape (Cv.set_ch0 y g) = shape y.
Proof.
  rewrite set_ch0_rows. unfold shape.
  revert g; induction y as [|r t IH]; intros [|p g] H; simpl in *; try discriminate;
    auto.
  injection H as H1 H2. rewrite IH by assumption. f_equal.
  clear -H1. revert p H1; induction r as [|x t IH]; intros [|y p] H; simpl in *;
    try lia; auto.
Qed.

Lemma equalize_hist_shape (g : gray) : shape (Cv.equalize_hist g) = shape g.
Proof.
  unfold Cv.equalize_hist.
  destruct (Nat.eqb _ 0); [reflexivity|].
  destruct (_ =? _); apply shape_imap.
Qed.

Lemma cvt_color_some (f : pixel -> pixel) (img : image) :
  concat img <> [] -> Cv.cvt_color f img = Some (imap f img).
Proof. unfold Cv.cvt_color. destruct (concat img); [congruence | reflexivity]. Qed.

Arguments Cv.cvt_color : simpl never.

(** Hist-eq on [img]: the YCrCb image with its Y plane equalized. *)
Definition hist_eq_ycrcb (img : image) : image :=
  let y := imap Cv.rgb2ycrcb_px img in
  Cv.set_ch0 y (Cv.equalize_hist (imap Cv.ch0 y)).

Lemma hist_eq_ycrcb_shape (img : image) : shape (hist_eq_ycrcb img) = shape img.
Proof.
  unfold hist_eq_ycrcb. rewrite set_ch0_shape; [apply shape_imap|].
  rewrite equalize_hist_shape, !shape_imap. reflexivity.
Qed.

Lemma apply_hist_eq_value h ins outs im img :
  nth_error h im = Some (BU8 img) -> concat img <> [] ->
  apply_hist_eq im (mkState h ins outs) =
  Ret (length h + 4)%nat
    (mkState (h ++ [BU8 img; BU8 (hist_eq_ycrcb img);
                    BG (Cv.equalize_hist (imap Cv.ch0 (imap Cv.rgb2ycrcb_px img)));
                    BU8 (imap Cv.ycrcb2rgb_px (hist_eq_ycrcb img));
                    BU8 (imap Cv.ycrcb2rgb_px (hist_eq_ycrcb img))]) ins outs).
Proof.
  intros Hi Hne.
  assert (Hne2 : concat (hist_eq_ycrcb img) <> []).
  { intros He. apply Hne. apply (concat_nil_shape (hist_eq_ycrcb img)); [|exact He].
    apply hist_eq_ycrcb_shape. }
  unfold apply_hist_eq, bind, load_u8, load_g, alloc, store, lift, ret.
  simpl. rewrite Hi. simpl. heap_simpl. rewrite cvt_color_some by exact Hne. simpl. heap_simpl.
  rewrite upd_snoc_lt by (rewrite !length_snoc; lia).
  rewrite upd_snoc_len. heap_simpl. fold (hist_eq_ycrcb img).
  rewrite cvt_color_some by exact Hne2. simpl. heap_simpl.
  cbn [heap stdin stdout]. rewrite <- !app_assoc. simpl.
  f_equal. rewrite length_app. simpl. lia.
Qed.

Lemma apply_hist_eq_empty h ins outs im img :
  nth_error h im = Some (BU8 img) -> concat img = [] ->
  apply_hist_eq im (mkState h ins outs) =
  Raise (Cv2Error Cv.empty_assert) (mkState (h ++ [BU8 img]) ins outs).
Proof.
  intros Hi He. unfold apply_hist_eq, bind, load_u8, alloc, lift, raise.
  simpl. rewrite Hi. simpl. heap_simpl. unfold Cv.cvt_color. rewrite He. reflexivity.
Qed.

Definition final_state {A : Type} (o : outcome A) : state :=
  match o with Ret _ s => s | Raise _ s => s end.

Definition s_demo : state := mkState [BU8 demo_img] [] [].

(** ** Claims about the adjustments *)

(** What one run of adjustment [a] on object [im] holding [img] leaves:
    the object still holds [img]; on success the result is a new 8-bit
    object allocated by the run. *)
Definition keeps_input (E : Env) (a : adjustment) (im : nat) (img : image)
  (s : state) : Prop :=
  match run_adjustment E a im s with
  | Ret l s' =>
      nth_error (heap s') im = Some (BU8 img) /\ (length (heap s) <= l)%nat /\
      exists out, nth_error (heap s') l = Some (BU8 out)
  | Raise _ s' => nth_error (heap s') im = Some (BU8 img)
  end.

(** C7: none of the seven adjustments mutates its input; each allocates
    and returns a new buffer, and the input object holds the same pixels
    after the call (also when the call raises). *)
Theorem adjustments_keep_input E a s im img :
  nth_error (heap s) im = Some (BU8 img) -> keeps_input E a im img s.
Proof.
  intros Hi. destruct s as [h ins outs].
  pose proof (run_adjustment_frame E a (fun _ => True) im (mkState h ins outs)
                (fun _ => I) (fun _ => I) (fun _ => I) (frame_start _ _ ins outs)) as W.
  unfold wp in W. unfold keeps_input.
  assert (Hlt : (im < length h)%nat) by (eapply nth_error_some_len; exact Hi).
  destruct (run_adjustment E a im (mkState h ins outs)) as [l s'|e s']; simpl in *.
  - destruct W as [[_ [Hold _]] [Hl Hout]]. rewrite Hold by exact Hlt. auto.
  - destruct W as [_ [Hold _]]. rewrite Hold by exact Hlt. exact Hi.
Qed.

Lemma adjustments_keep_input_witness :
  nth_error (heap s_demo) 0 = Some (BU8 demo_img) /\
  keeps_input demo_env AHistEq 0 demo_img s_demo.
Proof.
  split; [reflexivity|]. apply adjustments_keep_input. reflexivity.
Defined.

Lemma nth_error_app_offset {A : Type} (h t : list A) (k : nat) :
  nth_error (h ++ t) (length h + k) = nth_error t k.
Proof.
  rewrite nth_error_app2 by lia. f_equal. lia.
Qed.

Lemma nth_error_second {A : Type} (h : list A) (x y : A) :
  nth_error (h ++ [x; y]) (S (length h)) = Some y.
Proof.
  rewrite nth_error_app2 by lia. rewrite Nat.sub_succ_l, Nat.sub_diag by lia.
  reflexivity.
Qed.

Lemma u8_cast_u8 (x : spec_float) : in_u8 (Fp.u8_cast x) = true.
Proof.
  unfold in_u8, Fp.u8_cast. pose proof (Z.mod_pos_bound (Fp.cvtt_i32 x) 256) as H.
  apply andb_true_intro; split; apply Z.leb_le; lia.
Qed.

(** Every channel [ImagingBlend] computes is a byte. *)
Lemma blend_ch_u8 (alpha : spec_float) (a b : Z) : in_u8 (Pil.blend_ch alpha a b) = true.
Proof.
  unfold Pil.blend_ch.
  destruct (_ && _); [apply u8_cast_u8|].
  destruct (SFleb _ Fp.zero32); [reflexivity|].
  destruct (SFleb _ _); [reflexivity | apply u8_cast_u8].
Qed.

Lemma iforall_zipw2 {A B C : Type} (P : C -> bool) (f : A -> B -> C) img1 img2 :
  (forall x y, P (f x y) = true) -> iforall P (zipw (zipw f) img1 img2) = true.
Proof.
  intros H. unfold iforall. revert img2.
  induction img1 as [|r1 t1 IH]; intros [|r2 t2]; simpl; auto.
  rewrite IH, andb_true_r. clear -H. revert r2.
  induction r1 as [|x t IH]; intros [|y u]; simpl; auto. rewrite H, IH. reflexivity.
Qed.

(** [Image.blend] of two 8-bit images gives an 8-bit image. *)
Lemma blend_u8 (d img out : image) (alpha : Q) :
  iforall (pforall in_u8) d = true -> iforall (pforall in_u8) img = true ->
  Pil.blend d img alpha = Some out -> iforall (pforall in_u8) out = true.
Proof.
  intros Hd Hi. unfold Pil.blend.
  destruct (list_eq_dec _ _ _); [|discriminate].
  destruct (SFeqb _ Fp.zero32); [intros [= <-]; exact Hd|].
  destruct (SFeqb _ Fp.one32); intros [= <-]; [exact Hi|].
  apply iforall_zipw2. intros [[r1 g1] b1] [[r2 g2] b2]. simpl.
  rewrite !blend_ch_u8. reflexivity.
Qed.

(** An enhancer whose degenerate image is an 8-bit image of the input's
    size returns a new 8-bit image. *)
Lemma enhance_op_u8 deg h ins outs im img f :
  nth_error h im = Some (BU8 img) -> shape (deg img) = shape img ->
  iforall (pforall in_u8) (deg img) = true -> iforall (pforall in_u8) img = true ->
  exists out, enhance_op deg im f (mkState h ins outs) =
              Ret (S (length h)) (mkState (h ++ [BU8 (deg img); BU8 out]) ins outs) /\
              iforall (pforall in_u8) out = true.
Proof.
  intros Hi Hs Hd Hu. rewrite (enhance_op_value deg h ins outs im img f Hi).
  destruct (Pil.blend (deg img) img f) as [out|] eqn:Hb.
  - exists out. split; [reflexivity|]. exact (blend_u8 _ _ _ _ Hd Hu Hb).
  - exfalso. revert Hb. unfold Pil.blend.
    destruct (list_eq_dec _ _ _); [|contradiction].
    repeat destruct (SFeqb _ _); discriminate.
Qed.

Lemma l24_u8 p : pforall in_u8 p = true -> in_u8 (Pil.l24 p) = true.
Proof.
  destruct p as [[r g] b]. simpl. unfold in_u8. intros H.
  repeat (apply andb_prop in H as [H ?]). repeat match goal with
    H : (_ <=? _) = true |- _ => apply Z.leb_le in H end.
  rewrite Z.shiftr_div_pow2 by lia. change (2 ^ 16) with 65536.
  apply andb_true_intro; split; apply Z.leb_le.
  - apply Z.div_pos; lia.
  - assert (r * 19595 + g * 38470 + b * 7471 + 32768 < 65536 * 256) by lia.
    assert ((r * 19595 + g * 38470 + b * 7471 + 32768) / 65536 < 256)
      by (apply Z.div_lt_upper_bound; lia). lia.
Qed.

Lemma iforall_imap_on {A B : Type} (q : A -> bool) (p : B -> bool) (f : A -> B)
  (img : list (list A)) :
  iforall q img = true -> (forall x, q x = true -> p (f x) = true) ->
  iforall p (imap f img) = true.
Proof.
  intros H Hf. unfold iforall, imap in *. rewrite forallb_forall in *.
  intros r' Hr'. apply in_map_iff in Hr' as [r [<- Hr]].
  specialize (H r Hr). rewrite forallb_forall in *.
  intros y Hy. apply in_map_iff in Hy as [x [<- Hx]]. apply Hf, H, Hx.
Qed.

Lemma forallb_mapi_from {A B : Type} (p : B -> bool) (f : nat -> A -> B) i l :
  (forall j x, p (f j x) = true) -> forallb p (Pil.mapi_from f i l) = true.
Proof.
  intros H. revert i; induction l as [|x t IH]; intros i; simpl; auto.
  rewrite H, IH. reflexivity.
Qed.

Lemma iforall_mapi {A B : Type} (p : B -> bool) (f : nat -> nat -> A -> B)
  (img : list (list A)) :
  (forall i j x, p (f i j x) = true) ->
  iforall p (Pil.mapi (fun i row => Pil.mapi (fun j x => f i j x) row) img) = true.
Proof.
  intros H. unfold iforall, Pil.mapi. apply forallb_mapi_from. intros i row.
  apply forallb_mapi_from. intros j x. apply H.
Qed.

Definition enhancers (f : Q) : list adjustment :=
  [ABrightness f; AContrast f; ASharpness f; ASaturation f].

(** The degenerate image each enhancer blends with: an 8-bit image of the
    input's size when the input is 8-bit. *)
Lemma enhancer_degenerate E f a im :
  In a (enhancers f) ->
  exists deg, run_adjustment E a im = enhance_op deg im f /\
    forall img, shape (deg img) = shape img /\
      (iforall (pforall in_u8) img = true -> iforall (pforall in_u8) (deg img) = true).
Proof.
  intros Ha. unfold enhancers in Ha.
  destruct Ha as [<-|[<-|[<-|[<-|[]]]]]; simpl;
    unfold adjust_brightness, adjust_contrast, adjust_sharpness, adjust_saturation;
    eexists; (split; [reflexivity|]); intros img; split.
  - apply shape_imap.
  - intros _. apply iforall_imap. reflexivity.
  - apply shape_imap.
  - intros _. apply iforall_imap. intros _. cbn [pforall]. rewrite in_u8_clamp8. reflexivity.
  - apply shape_mapi.
  - intros _. apply iforall_mapi. intros i j _.
    destruct (smooth_px E img i j) as [[r g] b]. simpl. rewrite !in_u8_clamp8. reflexivity.
  - apply shape_imap.
  - intros Hu. apply (iforall_imap_on _ _ _ _ Hu). intros p Hp. simpl.
    rewrite (l24_u8 p Hp). reflexivity.
Qed.

Lemma ycrcb2rgb_u8 (p : pixel) : pforall in_u8 (Cv.ycrcb2rgb_px p) = true.
Proof. destruct p as [[y cr] cb]. simpl. rewrite !in_u8_clamp8. reflexivity. Qed.

(** The float round trip of gamma and exposure, and its absence elsewhere. *)
Definition float_roundtrip_facts (E : Env) (im : nat) (img : image) (s : state)
  : Prop :=
  (concat img <> [] -> forall g, Qle_bool 0 g = true ->
     exists s', apply_gamma E im g s = Ret (length (heap s) + 5)%nat s' /\
       nth_error (heap s') (length (heap s) + 5) =
         Some (BU8 (float_pipeline (gamma_curve E g) img))) /\
  (forall g, Qle_bool 0 g = false ->
     exists s', apply_gamma E im g s =
                Raise (ValueError "Gamma should be a non-negative real number.") s' /\
       nth_error (heap s') (S (length (heap s))) = Some (BF (Sk.img_as_float img))) /\
  (concat img <> [] -> forall g,
     exists s', adjust_exposure E im g s = Ret (length (heap s) + 5)%nat s' /\
       nth_error (heap s') (length (heap s) + 5) =
         Some (BU8 (float_pipeline (log_curve E g) img))) /\
  (concat img = [] ->
     (forall g, Qle_bool 0 g = true ->
        exists s', apply_gamma E im g s = Raise (ValueError Sk.zero_size_msg) s') /\
     (forall g, exists s', adjust_exposure E im g s = Raise (ValueError Sk.zero_size_msg) s')) /\
  (forall curve, iforall (pforall in_u8) (float_pipeline curve img) = true) /\
  (forall a, (forall g, a <> AGamma g) -> (forall g, a <> AExposure g) ->
     ~ allocates_float s (final_state (run_adjustment E a im s))) /\
  (iforall (pforall in_u8) img = true ->
   forall a l s', (forall g, a <> AGamma g) -> (forall g, a <> AExposure g) ->
     run_adjustment E a im s = Ret l s' ->
     exists out, nth_error (heap s') l = Some (BU8 out) /\
                 iforall (pforall in_u8) out = true).

(** C1 (amended): only gamma (for gamma >= 0) and exposure convert the
    buffer to floats in [0, 1], clip to [0, 1] and convert back; on an
    image with pixels their result is [float_pipeline] of the library
    curve, whose channels lie in [0, 255] whatever the curve returns (on
    an array with no element [img_as_ubyte] raises ValueError).  A
    negative gamma makes [adjust_gamma] raise after [img_as_float] has
    built the float copy.  Hist-eq, brightness, contrast, sharpness and
    saturation create no float array, and map an 8-bit image to an 8-bit
    image whenever they return. *)
Theorem float_roundtrip_only_gamma_exposure E s im img :
  nth_error (heap s) im = Some (BU8 img) -> float_roundtrip_facts E im img s.
Proof.
  intros Hi. destruct s as [h ins outs]. unfold float_roundtrip_facts. cbn [heap] in *.
  split; [|split; [|split; [|split; [|split; [|split]]]]].
  - intros Hne g Hg. rewrite (apply_gamma_value E h ins outs im img g Hi), Hg.
    rewrite float_run_ok by exact Hne.
    eexists; split; [reflexivity|]. cbn [heap]. rewrite nth_error_app_offset. reflexivity.
  - intros g Hg. rewrite (apply_gamma_value E h ins outs im img g Hi), Hg.
    eexists; split; [reflexivity|]. cbn [heap].
    replace (S (length h)) with (length h + 1)%nat by lia.
    rewrite nth_error_app_offset. reflexivity.
  - intros Hne g. rewrite (adjust_exposure_value E h ins outs im img g Hi).
    rewrite float_run_ok by exact Hne.
    eexists; split; [reflexivity|]. cbn [heap]. rewrite nth_error_app_offset. reflexivity.
  - intros He. split.
    + intros g Hg. rewrite (apply_gamma_value E h ins outs im img g Hi), Hg.
      rewrite float_run_empty by exact He. eexists; reflexivity.
    + intros g. rewrite (adjust_exposure_value E h ins outs im img g Hi).
      rewrite float_run_empty by exact He. eexists; reflexivity.
  - intros curve. apply float_pipeline_u8.
  - intros a Hg He [i [f [Hle Hf]]].
    pose proof (eight_bit_adjustments_frame E a im (mkState h ins outs) Hg He) as W.
    unfold wp in W. simpl in Hle.
    destruct (run_adjustment E a im (mkState h ins outs)) as [l s'|e s']; simpl in *.
    * destruct W as [[_ [_ Hnew]] _]. specialize (Hnew i (BF f) Hle Hf). discriminate.
    * destruct W as [_ [_ Hnew]]. specialize (Hnew i (BF f) Hle Hf). discriminate.
  - intros Hu a l s' Hg He Hr.
    destruct a as [g| |f|f|f|f|g];
      try (exfalso; eapply Hg; reflexivity); try (exfalso; eapply He; reflexivity).
    1: { simpl in Hr. destruct (concat img) as [|p ps] eqn:Hc.
      - rewrite (apply_hist_eq_empty h ins outs im img Hi Hc) in Hr. discriminate.
      - assert (Hne : concat img <> []) by (rewrite Hc; discriminate).
        rewrite (apply_hist_eq_value h ins outs im img Hi Hne) in Hr.
        injection Hr as <- <-. eexists; split.
        + cbn [heap]. rewrite nth_error_app_offset. reflexivity.
        + apply iforall_imap. apply ycrcb2rgb_u8. }
    all: lazymatch goal with
         | Hr : run_adjustment ?E0 ?a ?im0 _ = _ |- _ =>
             assert (Ha : In a (enhancers f)) by (simpl; tauto);
             destruct (enhancer_degenerate E0 f a im0 Ha) as [deg [Hrun Hdeg]];
             rewrite Hrun in Hr; destruct (Hdeg img) as [Hs Hdu];
             destruct (enhance_op_u8 deg h ins outs im img f Hi Hs (Hdu Hu) Hu)
               as [out [Ho Hou]];
             rewrite Ho in Hr; injection Hr as <- <-;
             exists out; split; [apply nth_error_second | exact Hou]
         end.
Qed.

Lemma float_roundtrip_only_gamma_exposure_witness :
  nth_error (heap s_demo) 0 = Some (BU8 demo_img) /\
  float_roundtrip_facts demo_env 0 demo_img s_demo.
Proof.
  split; [reflexivity|]. apply float_roundtrip_only_gamma_exposure. reflexivity.
Defined.

(** C1, as stated, fails: brightness does not go through a float array. *)
Lemma brightness_skips_float_counterexample :
  ~ (forall E a s im img, nth_error (heap s) im = Some (BU8 img) ->
       allocates_float s (final_state (run_adjustment E a im s))).
Proof.
  intros H.
  destruct (H demo_env (ABrightness 1) s_demo 0%nat demo_img eq_refl) as [i [f [Hle Hf]]].
  pose proof (nth_error_some_len _ _ _ Hf) as Hlt.
  vm_compute in Hle, Hlt.
  destruct i as [|[|[|i]]]; try lia; vm_compute in Hf; discriminate.
Qed.

Definition factor_one_adjustments : list adjustment :=
  [ABrightness 1; AContrast 1; ASharpness 1; ASaturation 1].

(** Run [a] on [im] and get back an object holding exactly [img]. *)
Definition returns_same_pixels (E : Env) (a : adjustment) (im : nat) (img : image)
  (s : state) : Prop :=
  exists l s', run_adjustment E a im s = Ret l s' /\
               nth_error (heap s') l = Some (BU8 img).

(** C8: brightness, contrast, sharpness and saturation with factor 1.0
    return a buffer with exactly the input's pixels: [(float)1.0] is 1 and
    [ImagingBlend] then copies the image. *)
Theorem enhancers_factor_one_identity E s im img :
  nth_error (heap s) im = Some (BU8 img) ->
  forall a, In a factor_one_adjustments -> returns_same_pixels E a im img s.
Proof.
  intros Hi a Ha. destruct s as [h ins outs]. unfold returns_same_pixels.
  assert (Ha' : In a (enhancers 1)) by exact Ha.
  destruct (enhancer_degenerate E 1 a im Ha') as [deg [Hrun Hdeg]].
  rewrite Hrun. destruct (Hdeg img) as [Hs _].
  rewrite (enhance_op_one deg h ins outs im img Hi Hs).
  do 2 eexists; split; [reflexivity|]. apply nth_error_second.
Qed.

Lemma enhancers_factor_one_identity_witness :
  nth_error (heap s_demo) 0 = Some (BU8 demo_img) /\
  In (AContrast 1) factor_one_adjustments /\
  returns_same_pixels demo_env (AContrast 1) 0 demo_img s_demo.
Proof.
  split; [reflexivity|]. split; [simpl; auto|].
  apply enhancers_factor_one_identity; [reflexivity | simpl; auto].
Defined.

(** C5: hist-eq converts RGB to YCrCb, equalizes only the Y plane with
    OpenCV's [equalizeHist], keeps Cr and Cb, converts back to RGB, and
    returns a new image of the input's shape (the channel count is three
    by the pixel type).  This holds for every image with a pixel, and
    [load_image] yields no other: Pillow's [ImageFile] refuses a size with
    a zero dimension.  On an array without pixels [cvtColor] raises. *)
Theorem hist_eq_equalizes_luma_only s im img :
  nth_error (heap s) im = Some (BU8 img) ->
  (concat img <> [] ->
   exists l s' ycc,
     apply_hist_eq im s = Ret l s' /\
     nth_error (heap s') l = Some (BU8 (imap Cv.ycrcb2rgb_px ycc)) /\
     imap Cv.chroma ycc = imap Cv.chroma (imap Cv.rgb2ycrcb_px img) /\
     imap Cv.ch0 ycc = Cv.equalize_hist (imap Cv.ch0 (imap Cv.rgb2ycrcb_px img)) /\
     shape (imap Cv.ycrcb2rgb_px ycc) = shape img) /\
  (concat img = [] ->
   exists s', apply_hist_eq im s = Raise (Cv2Error Cv.empty_assert) s').
Proof.
  intros Hi. destruct s as [h ins outs]. split.
  - intros Hne. rewrite (apply_hist_eq_value h ins outs im img Hi Hne).
    assert (Hsh : shape (imap Cv.rgb2ycrcb_px img) =
                  shape (Cv.equalize_hist (imap Cv.ch0 (imap Cv.rgb2ycrcb_px img)))).
    { rewrite equalize_hist_shape, !shape_imap. reflexivity. }
    eexists (length h + 4)%nat, _, (hist_eq_ycrcb img). split; [reflexivity|].
    split; [|split; [|split]]; unfold hist_eq_ycrcb.
    + cbn [heap]. rewrite nth_error_app_offset. reflexivity.
    + apply set_ch0_chroma. exact Hsh.
    + apply set_ch0_ch0. exact Hsh.
    + rewrite shape_imap, set_ch0_shape by exact Hsh. apply shape_imap.
  - intros He. rewrite (apply_hist_eq_empty h ins outs im img Hi He). eexists; reflexivity.
Qed.

Lemma hist_eq_equalizes_luma_only_witness :
  nth_error (heap s_demo) 0 = Some (BU8 demo_img) /\
  (concat demo_img <> [] ->
   exists l s' ycc,
     apply_hist_eq 0 s_demo = Ret l s' /\
     nth_error (heap s') l = Some (BU8 (imap Cv.ycrcb2rgb_px ycc)) /\
     imap Cv.chroma ycc = imap Cv.chroma (imap Cv.rgb2ycrcb_px demo_img) /\
     imap Cv.ch0 ycc = Cv.equalize_hist (imap Cv.ch0 (imap Cv.rgb2ycrcb_px demo_img)) /\
     shape (imap Cv.ycrcb2rgb_px ycc) = shape demo_img) /\
  (concat demo_img = [] ->
   exists s', apply_hist_eq 0 s_demo = Raise (Cv2Error Cv.empty_assert) s').
Proof.
  split; [reflexivity|]. apply hist_eq_equalizes_luma_only. reflexivity.
Defined.

(** ** The controller *)

Definition after_choice (out : list event) : list event :=
  (out ++ [EPrint menu_text]) ++ [EPrompt "Choose: "].

(** The tail of an iteration once [dispatch] returned [(c, m)]. *)
Definition confirm (r : nat * bool) : M (option (nat * bool)) :=
  match r with
  | (c, m) =>
      (if m then emit (EPrint "Applied.");; show c else ret tt);;
      ret (Some (c, m))
  end.

Lemma iteration_step E cur m h c rest o :
  iteration E cur m (mkState h (c :: rest) o) =
  if String.eqb c "0" then Ret None (mkState h rest (after_choice o))
  else bind (dispatch E c cur m) confirm (mkState h rest (after_choice o)).
Proof. unfold iteration. cbn. destruct (String.eqb c "0"); reflexivity. Qed.

Definition sevens : list string := ["1"; "2"; "3"; "4"; "5"; "6"; "7"]%string.

Definition menu_digits : list string :=
  ["0"; "1"; "2"; "3"; "4"; "5"; "6"; "7"; "8"; "9"]%string.

(** The flag a [dispatch] outcome carries, when it returns. *)
Definition flag_is (b : bool) (o : outcome (nat * bool)) : Prop :=
  match o with Ret (_, m') _ => m' = b | Raise _ _ => True end.

Lemma flag_is_bind {A : Type} b (m : M A) k s :
  (forall a s', flag_is b (k a s')) -> flag_is b (bind m k s).
Proof. intros H. unfold bind. destruct (m s); simpl; auto. Qed.

Lemma flag_is_ret_pair b c s : flag_is b (ret (c, b) s).
Proof. reflexivity. Qed.

Ltac flag_solve :=
  repeat (apply flag_is_bind; intros ? ?); apply flag_is_ret_pair.

Lemma dispatch_sevens E c cur m s :
  In c sevens -> flag_is true (dispatch E c cur m s).
Proof.
  intros Hc. unfold sevens in Hc.
  destruct Hc as [<-|[<-|[<-|[<-|[<-|[<-|[<-|[]]]]]]]]; unfold dispatch; simpl;
    flag_solve.
Qed.

Lemma dispatch_others E c cur m s :
  ~ In c sevens ->
  match dispatch E c cur m s with
  | Ret (c', m') s' => m' = m \/ (c = "9"%string /\ m = true /\ m' = false)
  | Raise _ _ => True
  end.
Proof.
  intros Hc. unfold dispatch.
  destruct (String.eqb_spec c "1"); [subst; exfalso; apply Hc; simpl; tauto|].
  destruct (String.eqb_spec c "2"); [subst; exfalso; apply Hc; simpl; tauto|].
  destruct (String.eqb_spec c "3"); [subst; exfalso; apply Hc; simpl; tauto|].
  destruct (String.eqb_spec c "4"); [subst; exfalso; apply Hc; simpl; tauto|].
  destruct (String.eqb_spec c "5"); [subst; exfalso; apply Hc; simpl; tauto|].
  destruct (String.eqb_spec c "6"); [subst; exfalso; apply Hc; simpl; tauto|].
  destruct (String.eqb_spec c "7"); [subst; exfalso; apply Hc; simpl; tauto|].
  destruct (String.eqb_spec c "8").
  { unfold bind, show, bind, load_u8, emit, ret.
    destruct (nth_error (heap s) cur) as [[]|]; simpl; auto. }
  destruct (String.eqb_spec c "9").
  { destruct m.
    - unfold bind. destruct (input "Save as: " s); simpl; auto.
      destruct (save_image E cur a 100 s0); simpl; auto.
    - simpl. auto. }
  simpl. auto.
Qed.

Lemma confirm_false c s : confirm (c, false) s = Ret (Some (c, false)) s.
Proof. reflexivity. Qed.

Lemma confirm_true c s i :
  nth_error (heap s) c = Some (BU8 i) ->
  confirm (c, true) s =
  Ret (Some (c, true))
      (mkState (heap s) (stdin s) ((stdout s ++ [EPrint "Applied."]) ++ [EShow i])).
Proof.
  intros H. destruct s as [h i0 o]. simpl in H.
  unfold confirm, show, bind, emit, load_u8, ret. cbn. rewrite H. reflexivity.
Qed.

Lemma confirm_shape c m s :
  match confirm (c, m) s with
  | Ret (Some (c', m')) _ => c' = c /\ m' = m
  | Ret None _ => False
  | Raise _ _ => True
  end.
Proof.
  destruct m; [|simpl; auto].
  destruct s as [h i0 o].
  unfold confirm, show, bind, emit, load_u8, ret. cbn.
  destruct (nth_error h c) as [[]|]; simpl; auto.
Qed.

Lemma not_menu_digit c :
  ~ In c menu_digits ->
  String.eqb c "0" = false /\ String.eqb c "1" = false /\ String.eqb c "2" = false /\
  String.eqb c "3" = false /\ String.eqb c "4" = false /\ String.eqb c "5" = false /\
  String.eqb c "6" = false /\ String.eqb c "7" = false /\ String.eqb c "8" = false /\
  String.eqb c "9" = false.
Proof.
  intros H. unfold menu_digits in H. simpl in H.
  repeat split; apply String.eqb_neq; intros ->; apply H; tauto.
Qed.

(** How one iteration treats the [modified] flag and [current]. *)
Definition flag_discipline (E : Env) (cur : nat) (h : list buf) : Prop :=
  (forall c rest o m, In c sevens ->
     match iteration E cur m (mkState h (c :: rest) o) with
     | Ret (Some (_, m')) _ => m' = true
     | Ret None _ => False
     | Raise _ _ => True
     end) /\
  (forall c rest o m cur' s',
     iteration E cur m (mkState h (c :: rest) o) = Ret (Some (cur', false)) s' ->
     m = true -> c = "9"%string) /\
  (forall c rest o m,
     c = "8"%string \/ (c = "9"%string /\ m = false) \/ ~ In c menu_digits ->
     exists s', iteration E cur m (mkState h (c :: rest) o) = Ret (Some (cur, m)) s' /\
                heap s' = h).

(** C10: in every iteration, choices 1-7 set [modified] whatever the
    adjustment did to the pixels (a parameter that does not parse, or a
    library error, ends the session instead); [modified] goes from true to
    false only through choice 9; choice 8, choice 9 with nothing to save
    and an invalid choice keep the flag, the [current] object and the heap. *)
Theorem modified_flag_discipline E cur h img :
  nth_error h cur = Some (BU8 img) -> flag_discipline E cur h.
Proof.
  intros Hcur. split; [|split].
  - intros c rest o m Hc. rewrite iteration_step.
    assert (Hc0 : String.eqb c "0" = false).
    { apply String.eqb_neq. intros ->. unfold sevens in Hc. simpl in Hc.
      repeat (destruct Hc as [Hc|Hc]; [discriminate|]). exact Hc. }
    rewrite Hc0. pose proof (dispatch_sevens E c cur m (mkState h rest (after_choice o)) Hc)
      as Hd.
    unfold bind. destruct (dispatch E c cur m _) as [[c' m'] s'|e s']; simpl in Hd; auto.
    subst m'. pose proof (confirm_shape c' true s') as Hs.
    destruct (confirm (c', true) s') as [[[c'' m'']|] s''|e s'']; tauto.
  - intros c rest o m cur' s' Hit Hm. subst m. rewrite iteration_step in Hit.
    destruct (String.eqb c "0"); [discriminate|].
    unfold bind in Hit.
    destruct (in_dec String.string_dec c sevens) as [Hin|Hout].
    + pose proof (dispatch_sevens E c cur true (mkState h rest (after_choice o)) Hin) as Hd.
      destruct (dispatch E c cur true _) as [[c' m'] s1|e s1]; [|discriminate].
      simpl in Hd. subst m'. pose proof (confirm_shape c' true s1) as Hs.
      rewrite Hit in Hs. destruct Hs; discriminate.
    + pose proof (dispatch_others E c cur true (mkState h rest (after_choice o)) Hout) as Hd.
      destruct (dispatch E c cur true _) as [[c' m'] s1|e s1]; [|discriminate].
      pose proof (confirm_shape c' m' s1) as Hs. rewrite Hit in Hs.
      destruct Hs as [_ <-]. destruct Hd as [Hd|[Hd _]]; [discriminate | exact Hd].
  - intros c rest o m Hc. rewrite iteration_step.
    destruct Hc as [->|[[-> ->]|Hc]].
    + cbn -[confirm]. unfold show, bind, load_u8, emit, ret. cbn [heap]. rewrite Hcur.
      cbn -[confirm]. destruct m.
      * rewrite confirm_true with (i := img) by exact Hcur. eexists; split; reflexivity.
      * rewrite confirm_false. eexists; split; reflexivity.
    + cbn. eexists; split; reflexivity.
    + destruct (not_menu_digit c Hc) as (H0 & H1 & H2 & H3 & H4 & H5 & H6 & H7 & H8 & H9).
      rewrite H0. unfold dispatch.
      rewrite H1, H2, H3, H4, H5, H6, H7, H8, H9.
      unfold bind at 1, emit, ret. cbn -[confirm]. destruct m.
      * rewrite confirm_true with (i := img) by exact Hcur. eexists; split; reflexivity.
      * rewrite confirm_false. eexists; split; reflexivity.
Qed.

Lemma modified_flag_discipline_witness :
  nth_error [BU8 demo_img] 0 = Some (BU8 demo_img) /\
  flag_discipline demo_env 0 [BU8 demo_img].
Proof.
  split; [reflexivity|]. apply modified_flag_discipline with (img := demo_img).
  reflexivity.
Defined.

(** C4: choice 9 with [modified] false prints the no-op notice and
    writes nothing; with [modified] true it prompts for a path, writes the
    current buffer with quality 100 and clears the flag (when Pillow
    refuses the path the exception ends the session before the flag is
    cleared). *)
Theorem save_choice_behaviour E h o cur img p rest :
  nth_error h cur = Some (BU8 img) ->
  iteration E cur false (mkState h ("9"%string :: rest) o) =
    Ret (Some (cur, false))
        (mkState h rest (after_choice o ++ [EPrint "Nothing to save."])) /\
  iteration E cur true (mkState h ("9"%string :: p :: rest) o) =
    if pil_accepts E p then
      Ret (Some (cur, false))
          (mkState h rest (((after_choice o ++ [EPrompt "Save as: "]) ++
                            [ESave p (save_options (ext_of p) 100) img]) ++
                           [EPrint ("Saved: " ++ p)]))
    else
      Raise (ValueError "unknown file extension")
            (mkState h rest (after_choice o ++ [EPrompt "Save as: "])).
Proof.
  intros Hcur. split.
  - rewrite iteration_step. reflexivity.
  - rewrite iteration_step. cbn -[save_image]. unfold save_image, bind, load_u8.
    cbn. rewrite Hcur. destruct (pil_accepts E p); reflexivity.
Qed.

Lemma save_choice_behaviour_witness :
  nth_error [BU8 demo_img] 0 = Some (BU8 demo_img) /\
  iteration demo_env 0 false (mkState [BU8 demo_img] ["9"; "0"]%string []) =
    Ret (Some (0%nat, false))
        (mkState [BU8 demo_img] ["0"]%string (after_choice [] ++ [EPrint "Nothing to save."])) /\
  iteration demo_env 0 true (mkState [BU8 demo_img] ["9"; "out.jpg"; "0"]%string []) =
    if pil_accepts demo_env "out.jpg"%string then
      Ret (Some (0%nat, false))
          (mkState [BU8 demo_img] ["0"]%string
             (((after_choice [] ++ [EPrompt "Save as: "]) ++
               [ESave "out.jpg"%string (save_options (ext_of "out.jpg"%string) 100) demo_img]) ++
              [EPrint ("Saved: " ++ "out.jpg")]))
    else
      Raise (ValueError "unknown file extension")
            (mkState [BU8 demo_img] ["0"]%string (after_choice [] ++ [EPrompt "Save as: "])).
Proof.
  split; [reflexivity|]. apply save_choice_behaviour. reflexivity.
Defined.

(** C9: when the image does not load, the program prints the error and
    returns: no further prompt, no input read, exit status 0. *)
Theorem load_failure_ends_session E p rest msg :
  load_file E p = inl msg ->
  run_main E (p :: rest) =
    Ret tt (mkState [] rest [EPrompt "Path: "; EPrint ("Error loading image: " ++ msg)])
  /\ exit_code (run_main E (p :: rest)) = 0.
Proof.
  intros H. unfold run_main, main, load_image. cbn. rewrite H. split; reflexivity.
Qed.

Lemma load_failure_ends_session_witness :
  load_file demo_env "b.png"%string = inl "No such file or directory"%string /\
  run_main demo_env ["b.png"; "0"]%string =
    Ret tt (mkState [] ["0"]%string [EPrompt "Path: ";
                              EPrint ("Error loading image: " ++ "No such file or directory")])
  /\ exit_code (run_main demo_env ["b.png"; "0"]%string) = 0.
Proof.
  split; [reflexivity|]. apply load_failure_ends_session. reflexivity.
Defined.

Definition is_applied (e : event) : bool :=
  match e with EPrint s => String.eqb s "Applied." | _ => false end.

Definition is_show (e : event) : bool :=
  match e with EShow _ => true | _ => false end.

(** C2: after a hist-eq (choice 2), a show (choice 8) and an invalid
    choice each print "Applied." again and show the image again: the check
    after the menu branch reads the pending [modified] flag, not whether
    this iteration changed the image.  Three confirmations and four
    displays for one modification. *)
Lemma pending_flag_reconfirms :
  let o := run_main demo_env ["a.png"; "2"; "8"; "x"; "0"]%string in
  exit_code o = 0 /\
  length (filter is_applied (stdout (final_state o))) = 3%nat /\
  length (filter is_show (stdout (final_state o))) = 4%nat.
Proof. vm_compute. repeat split; reflexivity. Qed.

(** ** The encoder options chosen by [save_image] *)

(** [s] contains no ['.']. *)
Fixpoint no_dot (s : string) : bool :=
  match s with
  | EmptyString => true
  | String c t => negb (Ascii.eqb c ".") && no_dot t
  end.

(** The options as the specification lists them, for a (lowercased) file
    extension: jpg/jpeg get quality, optimize and no chroma subsampling,
    png gets the fastest compression level, any other extension nothing. *)
Definition claimed_options (ext : string) (quality : Z) : list save_opt :=
  if existsb (String.eqb ext) ["jpg"; "jpeg"]%string
  then [OQuality quality; OOptimize true; OSubsampling 0]
  else if String.eqb ext "png" then [OCompressLevel 1] else [].

Lemma append_String_assoc (a : string) (c : ascii) (t : string) :
  ((a ++ String c EmptyString) ++ t)%string = (a ++ String c t)%string.
Proof. induction a as [|x a IH]; simpl; [reflexivity|now rewrite IH]. Qed.

Lemma last_field_no_dot (e cur : string) :
  no_dot e = true -> last_field e cur = (cur ++ e)%string.
Proof.
  revert cur. induction e as [|c t IH]; intros cur H.
  - simpl. induction cur as [|x cur IH]; simpl; congruence.
  - simpl in H. apply andb_prop in H as [Hc Ht].
    apply negb_true_iff in Hc. simpl. rewrite Hc, IH by exact Ht.
    apply append_String_assoc.
Qed.

Lemma last_field_after_dot (stem e cur : string) :
  no_dot e = true -> last_field (stem ++ String "." e) cur = e.
Proof.
  revert cur. induction stem as [|c t IH]; intros cur H.
  - simpl. now rewrite last_field_no_dot.
  - simpl. destruct (Ascii.eqb c "."); apply IH; exact H.
Qed.

(** C6: for a path [stem ++ "." ++ e] whose extension [e] holds no
    further dot, the options passed to [image.save] are those the
    specification lists for the lowercased extension. *)
Theorem save_options_by_extension (stem e : string) (quality : Z) :
  no_dot e = true ->
  save_options (ext_of (stem ++ String "." e)) quality =
    claimed_options (lower e) quality.
Proof.
  intros H. unfold ext_of. rewrite last_field_after_dot by exact H.
  unfold save_options, claimed_options. simpl.
  destruct (String.eqb (lower e) "jpg"); destruct (String.eqb (lower e) "jpeg");
    reflexivity.
Qed.

Lemma save_options_by_extension_witness :
  no_dot "JPEG"%string = true /\
  save_options (ext_of "photos/cat.v2.JPEG"%string) 90 =
    [OQuality 90; OOptimize true; OSubsampling 0].
Proof.
  split; [reflexivity|].
  apply (save_options_by_extension "photos/cat.v2" "JPEG" 90). reflexivity.
Defined.

Module Exposure.
Import Stdlib.Reals.Reals Stdlib.micromega.Lra Stdlib.micromega.Psatz.
Local Open Scope R_scope.

Definition clip01 (x : R) : R := Rmin 1 (Rmax 0 x).
Definition log2 (x : R) : R := ln x / ln 2.
Definition scale : R := 1 - 0.
Definition adjust_log_px (gain x : R) : R := log2 (1 + x / scale) * scale * gain.
Definition exposure_px (gain x : R) : R := clip01 (adjust_log_px gain x).
Definition spec_exposure_px (gain x : R) : R :=
  clip01 (ln (1 + gain * x) / ln (1 + gain)).

Lemma ln2_pos : 0 < ln 2.
Proof. pose proof ln_lt_2. lra. Qed.

Lemma scale_one : scale = 1.
Proof. unfold scale. ring. Qed.

Lemma ln_1_plus_nonneg x : 0 <= x -> 0 <= ln (1 + x).
Proof.
  intros Hx. destruct (Req_dec x 0) as [->|Hne].
  - rewrite Rplus_0_r, ln_1. lra.
  - rewrite <- ln_1. left. apply ln_increasing; lra.
Qed.

Lemma ln_1_plus_le x y : 0 <= x -> x <= y -> ln (1 + x) <= ln (1 + y).
Proof.
  intros Hx Hxy. destruct (Req_dec x y) as [->|Hne]; [lra|].
  left. apply ln_increasing; lra.
Qed.

Lemma clip01_mono a b : a <= b -> clip01 a <= clip01 b.
Proof.
  intros H. unfold clip01. apply Rle_min_compat_l, Rle_max_compat_l, H.
Qed.

Lemma clip01_nonpos a : a <= 0 -> clip01 a = 0.
Proof.
  intros H. unfold clip01. rewrite Rmax_left by lra. apply Rmin_right. lra.
Qed.

Lemma clip01_mid a : 0 <= a <= 1 -> clip01 a = a.
Proof.
  intros H. unfold clip01. rewrite Rmax_right by lra. apply Rmin_right. lra.
Qed.

Lemma clip01_above a : 1 <= a -> clip01 a = 1.
Proof.
  intros H. unfold clip01. rewrite Rmax_right by lra. apply Rmin_left. lra.
Qed.

Lemma adjust_log_px_eq g x : adjust_log_px g x = g * (ln (1 + x) / ln 2).
Proof.
  unfold adjust_log_px, log2. rewrite scale_one.
  replace (x / 1) with x by field. ring.
Qed.

Lemma exposure_128_gain2 : exposure_px 2 (128/255) = 1.
Proof.
  unfold exposure_px. rewrite adjust_log_px_eq. apply clip01_above.
  pose proof ln2_pos as H2.
  assert (Hm : ln (1 + 128/255) + ln (1 + 128/255) = ln ((383/255) * (383/255))).
  { rewrite <- ln_mult by lra. f_equal; field. }
  assert (Hl : ln 2 <= ln ((383/255) * (383/255))).
  { left. apply ln_increasing; lra. }
  apply (Rmult_le_reg_r (ln 2)); [exact H2|].
  replace (2 * (ln (1 + 128 / 255) / ln 2) * ln 2) with (2 * ln (1 + 128/255))
    by (field; lra).
  lra.
Qed.

Lemma spec_128_gain2 : spec_exposure_px 2 (128/255) < 1.
Proof.
  unfold spec_exposure_px. replace (1 + 2) with 3 by ring.
  pose proof ln2_pos as H2.
  assert (H3 : ln 2 < ln 3) by (apply ln_increasing; lra).
  assert (Ha : ln (1 + 2 * (128/255)) < ln 3) by (apply ln_increasing; lra).
  assert (Hb : 0 <= ln (1 + 2 * (128/255))) by (apply ln_1_plus_nonneg; lra).
  assert (Hlt : ln (1 + 2 * (128/255)) / ln 3 < 1).
  { apply (Rmult_lt_reg_r (ln 3)); [lra|].
    replace (ln (1 + 2 * (128/255)) / ln 3 * ln 3) with (ln (1 + 2 * (128/255)))
      by (field; lra). lra. }
  assert (Hpos : 0 <= ln (1 + 2 * (128/255)) / ln 3).
  { unfold Rdiv. apply Rmult_le_pos; [lra|]. left. apply Rinv_0_lt_compat. lra. }
  rewrite clip01_mid by lra. exact Hlt.
Qed.

(** C3, as stated: at gain 2 and the channel value 128 (in = 128/255)
    the spec's curve gives [ln (511/255) / ln 3 < 1] while the code's
    output saturates at 1. *)
Lemma exposure_formula_counterexample :
  ~ (forall gain (v : Z), (0 <= v <= 255)%Z ->
       exposure_px gain (IZR v / 255) = spec_exposure_px gain (IZR v / 255)).
Proof.
  intros H. specialize (H 2 128%Z ltac:(lia)).
  rewrite exposure_128_gain2 in H. pose proof spec_128_gain2. lra.
Qed.

(** C3 (amended): the exposure curve is [clip (gain * log2 (1 + in))],
    scikit-image's [adjust_log] with scale 1.  It equals the spec's
    [log (1 + gain*in) / log (1 + gain)] at the default gain 1; it differs
    from it at every gain in (0, 1) (at in = 1) and at gain 2 (at
    in = 128/255).  For gain > 0 it is non-decreasing in the input, and
    for gain <= 0 it is 0 on every input in [0, 1]. *)
Theorem exposure_is_gain_log2_clipped (gain x y : R) :
  exposure_px gain x = clip01 (gain * (ln (1 + x) / ln 2)) /\
  exposure_px 1 x = spec_exposure_px 1 x /\
  (0 < gain < 1 -> exposure_px gain 1 <> spec_exposure_px gain 1) /\
  exposure_px 2 (128/255) <> spec_exposure_px 2 (128/255) /\
  (0 < gain -> 0 <= x -> x <= y -> exposure_px gain x <= exposure_px gain y) /\
  (gain <= 0 -> 0 <= x -> exposure_px gain x = 0).
Proof.
  pose proof ln2_pos as H2.
  split; [|split; [|split; [|split; [|split]]]].
  - unfold exposure_px. rewrite adjust_log_px_eq. reflexivity.
  - unfold exposure_px, spec_exposure_px. rewrite adjust_log_px_eq. f_equal.
    replace (1 * x) with x by ring. replace (1 + 1) with 2 by ring. ring.
  - intros Hg. unfold exposure_px, spec_exposure_px. rewrite adjust_log_px_eq.
    replace (1 + 1) with 2 by ring. replace (gain * 1) with gain by ring.
    assert (Hl : 0 < ln (1 + gain)).
    { rewrite <- ln_1. apply ln_increasing; lra. }
    replace (gain * (ln 2 / ln 2)) with gain by (field; lra).
    replace (ln (1 + gain) / ln (1 + gain)) with 1 by (field; lra).
    rewrite clip01_mid by lra. rewrite clip01_above by lra. lra.
  - rewrite exposure_128_gain2. pose proof spec_128_gain2. lra.
  - intros Hg Hx Hxy. unfold exposure_px. rewrite !adjust_log_px_eq.
    apply clip01_mono. apply Rmult_le_compat_l; [lra|].
    unfold Rdiv. apply Rmult_le_compat_r.
    + left. apply Rinv_0_lt_compat. exact H2.
    + apply ln_1_plus_le; assumption.
  - intros Hg Hx. unfold exposure_px. rewrite adjust_log_px_eq.
    apply clip01_nonpos.
    assert (0 <= ln (1 + x) / ln 2).
    { unfold Rdiv. apply Rmult_le_pos; [apply ln_1_plus_nonneg; exact Hx|].
      left. apply Rinv_0_lt_compat. exact H2. }
    nra.
Qed.

Lemma exposure_is_gain_log2_clipped_witness :
  exposure_px 1 (1/2) = spec_exposure_px 1 (1/2) /\
  exposure_px (1/2) 1 <> spec_exposure_px (1/2) 1 /\
  exposure_px 2 0 <= exposure_px 2 1 /\
  exposure_px (-1) (1/2) = 0.
Proof.
  destruct (exposure_is_gain_log2_clipped 2 0 1) as [_ [_ [_ [_ [Hm _]]]]].
  destruct (exposure_is_gain_log2_clipped (-1) (1/2) 0) as [_ [_ [_ [_ [_ Hz]]]]].
  destruct (exposure_is_gain_log2_clipped (1/2) (1/2) 0) as [_ [He [Hd _]]].
  split; [exact He|split; [|split]].
  - apply Hd; lra.
  - apply Hm; lra.
  - apply Hz; lra.
Defined.

End Exposure.

(** * Further properties of the program *)

From Stdlib Require Import Lqa.

Lemma Qeq_bool_compat (a b c : Q) : (a == b)%Q -> Qeq_bool a c = Qeq_bool b c.
Proof. intros H. apply Bool.eq_iff_eq_true. rewrite !Qeq_bool_iff, H. reflexivity. Qed.

Lemma Qle_bool_compat_r (c a b : Q) : (a == b)%Q -> Qle_bool c a = Qle_bool c b.
Proof. intros H. apply Bool.eq_iff_eq_true. rewrite !Qle_bool_iff, H. reflexivity. Qed.

Lemma rint_Qeq (q q' : Q) : (q == q')%Q -> rint q = rint q'.
Proof.
  intros H. unfold rint. rewrite (Qfloor_comp q q' H).
  assert (Hd : (q - inject_Z (Qfloor q') == q' - inject_Z (Qfloor q'))%Q)
    by (rewrite H; reflexivity).
  rewrite (Qeq_bool_compat _ _ _ Hd), (Qle_bool_compat_r _ _ _ Hd). reflexivity.
Qed.

Lemma rint_Z (v : Z) : rint (inject_Z v) = v.
Proof.
  unfold rint. rewrite Qfloor_Z.
  assert (Hd : (inject_Z v - inject_Z v == 0)%Q) by lra.
  rewrite (Qeq_bool_compat _ _ _ Hd), (Qle_bool_compat_r _ _ _ Hd). reflexivity.
Qed.

Lemma clamp8_u8 (v : Z) : in_u8 v = true -> clamp8 v = v.
Proof.
  unfold in_u8, clamp8. intros H. apply andb_prop in H as [H1 H2].
  apply Z.leb_le in H1, H2. lia.
Qed.

Lemma u8_frac_scale (v : Z) :
  (inject_Z v / inject_Z 255 * inject_Z 255 == inject_Z v)%Q.
Proof. unfold Qeq. simpl. lia. Qed.

Lemma u8_frac_range (v : Z) :
  in_u8 v = true -> (0 <= inject_Z v / inject_Z 255 <= 1)%Q.
Proof.
  unfold in_u8. intros H. apply andb_prop in H as [H1 H2].
  apply Z.leb_le in H1, H2. unfold Qle. simpl. lia.
Qed.

Lemma clip01_id (x : Q) : (0 <= x <= 1)%Q -> (Sk.clip01 x == x)%Q.
Proof.
  intros [H0 H1]. unfold Sk.clip01.
  destruct (Qle_bool x 0) eqn:E0.
  - apply Qle_bool_iff in E0. lra.
  - destruct (Qle_bool 1 x) eqn:E1; [apply Qle_bool_iff in E1; lra | reflexivity].
Qed.

Lemma imap_id_on {A : Type} (p : A -> bool) (f : A -> A) (img : list (list A)) :
  iforall p img = true -> (forall x, p x = true -> f x = x) -> imap f img = img.
Proof.
  intros H Hf. unfold iforall, imap in *. induction img as [|r t IH]; simpl in *; auto.
  apply andb_prop in H as [Hr Ht]. rewrite IH by exact Ht. f_equal.
  rewrite forallb_forall in Hr. rewrite (map_ext_in f id); [apply map_id|].
  intros x Hx. apply Hf, Hr, Hx.
Qed.

Lemma float_pipeline_id (curve : Q -> Q) (img : image) :
  (forall x, (0 <= x <= 1)%Q -> curve x = x) ->
  iforall (pforall in_u8) img = true -> float_pipeline curve img = img.
Proof.
  intros Hc Hi. unfold float_pipeline. apply (imap_id_on _ _ _ Hi).
  intros [[r g] b] Hp. simpl in Hp.
  apply andb_prop in Hp as [Hp Hb]. apply andb_prop in Hp as [Hr Hg].
  cbn. f_equal; [f_equal|].
  all: match goal with |- clamp8 (rint (Sk.clip01 (_ (inject_Z ?v / _)%Q) * _)%Q) = _ =>
         rewrite Hc by (apply u8_frac_range; assumption);
         rewrite (rint_Qeq _ (inject_Z v));
         [rewrite rint_Z; apply clamp8_u8; assumption
         | rewrite clip01_id by (apply u8_frac_range; assumption);
           apply u8_frac_scale] end.
Qed.

(** X6: when the gamma curve is the identity on [0,1] (gamma 1), [apply_gamma] returns, for an 8-bit image with a pixel, an image equal to its input. *)
Theorem gamma_identity_curve_keeps_pixels (E : Env) (s : state) (im : nat) (img : image) (g : Q) :
  nth_error (heap s) im = Some (BU8 img) -> iforall (pforall in_u8) img = true ->
  concat img <> [] ->
  Qle_bool 0 g = true -> (forall x, (0 <= x <= 1)%Q -> gamma_curve E g x = x) ->
  exists s', apply_gamma E im g s = Ret (length (heap s) + 5)%nat s' /\
    nth_error (heap s') (length (heap s) + 5) = Some (BU8 img).
Proof.
  intros Hi Hu Hne Hg Hc. destruct s as [h ins outs]. cbn [heap] in *.
  rewrite (apply_gamma_value E h ins outs im img g Hi), Hg, float_run_ok by exact Hne.
  eexists. split; [reflexivity|]. cbn [heap].
  rewrite nth_error_app_offset. cbn. rewrite float_pipeline_id by assumption. reflexivity.
Qed.

Definition pow_env : Env := {|
  parse_float := parse_float demo_env;
  gamma_curve := fun g x => if Qeq_bool g 1 then x else (x * x)%Q;
  log_curve := log_curve demo_env;
  smooth_px := smooth_px demo_env;
  load_file := load_file demo_env;
  pil_accepts := pil_accepts demo_env
|}.

(** X1: choosing gamma with a parsable negative value raises the ValueError of [apply_gamma] out of the menu loop, after the float copy has been allocated. *)
Theorem negative_gamma_ends_session E n cur m h img x rest o g :
  nth_error h cur = Some (BU8 img) -> parse_float E x = Some g ->
  Qle_bool 0 g = false ->
  loop E (S n) cur m (mkState h ("1" :: x :: rest)%string o) =
  Raise (ValueError "Gamma should be a non-negative real number.")
        (mkState (h ++ [BU8 img; BF (Sk.img_as_float img)]) rest
                 (after_choice o ++ [EPrompt "Gamma [1]: "])).
Proof.
  intros Hc Hx Hg. simpl loop. unfold bind at 1. rewrite iteration_step. cbn.
  unfold bind, read_float, input, emit, lift. cbn -[apply_gamma]. rewrite Hx. cbn -[apply_gamma]. rewrite (apply_gamma_value E h rest _ cur img g Hc), Hg.
  reflexivity.
Qed.

Definition param_choices : list (string * string) :=
  [("1", "Gamma [1]: "); ("3", "Brightness [1]: "); ("4", "Contrast [1]: ");
   ("5", "Sharpness [1]: "); ("6", "Saturation [1]: "); ("7", "Exposure [1]: ")]%string.

(** X2: an unparsable number at any of the six numeric prompts raises ValueError out of the loop with no adjustment run and the heap unchanged. *)
Theorem unparsable_parameter_ends_session E n cur m h c prompt x rest o :
  In (c, prompt) param_choices -> parse_float E x = None ->
  loop E (S n) cur m (mkState h (c :: x :: rest) o) =
  Raise (ValueError "could not convert string to float")
        (mkState h rest (after_choice o ++ [EPrompt prompt])).
Proof.
  intros Hc Hx. unfold param_choices in Hc.
  destruct Hc as [Hc|[Hc|[Hc|[Hc|[Hc|[Hc|[]]]]]]]; injection Hc as <- <-;
    simpl loop; unfold bind at 1; rewrite iteration_step;
    unfold dispatch, bind, read_float, input, emit, lift; cbn -[apply_gamma];
    rewrite Hx; reflexivity.
Qed.

(** X3: saving under a path whose extension Pillow does not accept raises ValueError out of the loop and writes nothing. *)
Theorem rejected_save_path_ends_session E n cur h img p rest o :
  nth_error h cur = Some (BU8 img) -> pil_accepts E p = false ->
  loop E (S n) cur true (mkState h ("9" :: p :: rest)%string o) =
  Raise (ValueError "unknown file extension")
        (mkState h rest (after_choice o ++ [EPrompt "Save as: "])).
Proof.
  intros Hc Hp. simpl loop. unfold bind at 1. rewrite iteration_step.
  unfold dispatch, save_image, bind, input, emit, load_u8, raise; cbn.
  rewrite Hc, Hp. reflexivity.
Qed.

(** X4: choice 0 ends the session normally after the menu; an exhausted stdin raises EOFError at the menu prompt. *)
Theorem session_exit_and_eof E n cur m h rest o :
  loop E (S n) cur m (mkState h ("0" :: rest)%string o) =
    Ret tt (mkState h rest (after_choice o)) /\
  loop E (S n) cur m (mkState h [] o) =
    Raise EOFError (mkState h [] (after_choice o)).
Proof. split; reflexivity. Qed.

(** Programs that only ever consume standard input. *)
Definition consumes {A : Type} (m : M A) : Prop :=
  forall s, (length (stdin (final_state (m s))) <= length (stdin s))%nat.

Lemma consumes_ret {A : Type} (a : A) : consumes (ret a).
Proof. intros s. simpl. lia. Qed.

Lemma consumes_raise {A : Type} (e : exn) : consumes (@raise A e).
Proof. intros s. simpl. lia. Qed.

Lemma consumes_bind {A B : Type} (m : M A) (k : A -> M B) :
  consumes m -> (forall a, consumes (k a)) -> consumes (bind m k).
Proof.
  intros Hm Hk s. specialize (Hm s). unfold bind.
  destruct (m s) as [a s'|e s']; simpl in *; [specialize (Hk a s')|]; lia.
Qed.

Lemma consumes_alloc b : consumes (alloc b).
Proof. intros s. simpl. lia. Qed.

Lemma consumes_store l b : consumes (store l b).
Proof. intros s. simpl. lia. Qed.

Lemma consumes_load_u8 l : consumes (load_u8 l).
Proof. intros s. unfold load_u8. destruct (nth_error _ _) as [[]|]; simpl; lia. Qed.

Lemma consumes_load_f l : consumes (load_f l).
Proof. intros s. unfold load_f. destruct (nth_error _ _) as [[]|]; simpl; lia. Qed.

Lemma consumes_load_g l : consumes (load_g l).
Proof. intros s. unfold load_g. destruct (nth_error _ _) as [[]|]; simpl; lia. Qed.

Lemma consumes_emit e : consumes (emit e).
Proof. intros s. simpl. lia. Qed.

Lemma consumes_input p : consumes (input p).
Proof. intros [h [|x t] o]; simpl; lia. Qed.

Lemma consumes_lift {A : Type} (o : option A) e : consumes (lift o e).
Proof. destruct o; [apply consumes_ret | apply consumes_raise]. Qed.

Lemma consumes_lift_r {A : Type} (o : string + A) : consumes (lift_r o).
Proof. destruct o; [apply consumes_raise | apply consumes_ret]. Qed.

Ltac consumes_solve :=
  repeat match goal with
  | |- consumes (bind _ _) => apply consumes_bind; [|intros ?]
  | |- consumes (if ?c then _ else _) => destruct c
  | |- consumes (match ?r with (_, _) => _ end) => destruct r
  | |- consumes _ =>
      first [ apply consumes_ret | apply consumes_raise | apply consumes_alloc
            | apply consumes_store | apply consumes_load_u8 | apply consumes_load_f
            | apply consumes_load_g | apply consumes_emit | apply consumes_input
            | apply consumes_lift | apply consumes_lift_r ]
  end.

Lemma consumes_dispatch E c cur m : consumes (dispatch E c cur m).
Proof.
  unfold dispatch, read_float, apply_gamma, apply_hist_eq, adjust_brightness,
    adjust_contrast, adjust_sharpness, adjust_saturation, enhance_op,
    adjust_exposure, show, save_image.
  consumes_solve.
Qed.

Lemma consumes_confirm r : consumes (confirm r).
Proof. unfold confirm, show. consumes_solve. Qed.

Lemma iteration_consumes_line E cur m s :
  match iteration E cur m s with
  | Ret (Some _) s' => (length (stdin s') < length (stdin s))%nat
  | _ => True
  end.
Proof.
  destruct s as [h [|c rest] o]; [exact I|].
  rewrite iteration_step. destruct (String.eqb c "0"); [exact I|].
  pose proof (consumes_bind _ _ (consumes_dispatch E c cur m) consumes_confirm
                (mkState h rest (after_choice o))) as H.
  destruct (bind (dispatch E c cur m) confirm _) as [[r|] s'|e s']; simpl in *; auto.
  lia.
Qed.

(** X5: every iteration of the menu loop that goes on consumes a line of stdin, so any fuel larger than the number of remaining lines gives the same outcome. *)
Theorem loop_fuel_adequate E n1 n2 cur m s :
  (length (stdin s) < n1)%nat -> (length (stdin s) < n2)%nat ->
  loop E n1 cur m s = loop E n2 cur m s.
Proof.
  revert n2 cur m s. induction n1 as [|n1 IH]; intros [|n2] cur m s H1 H2; try lia.
  simpl. unfold bind. pose proof (iteration_consumes_line E cur m s) as Hc.
  destruct (iteration E cur m s) as [[[c m']|] s'|e s']; auto.
  apply IH; lia.
Qed.

Lemma zipw_length {A B C : Type} (f : A -> B -> C) l1 l2 :
  length l1 = length l2 -> length (zipw f l1 l2) = length l1.
Proof.
  revert l2; induction l1 as [|x t IH]; intros [|y l2] H; simpl in *; try lia; auto.
Qed.

Lemma shape_zipw2 {A B C : Type} (f : A -> B -> C) img1 img2 :
  shape img1 = shape img2 -> shape (zipw (zipw f) img1 img2) = shape img1.
Proof.
  unfold shape.
  revert img2; induction img1 as [|r t IH]; intros [|r2 img2] Hs; simpl in *;
    try discriminate; auto.
  injection Hs as H1 H2. rewrite zipw_length, IH by auto. reflexivity.
Qed.

(** [Image.blend] keeps the size of its two inputs. *)
Lemma blend_shape d img f out :
  shape d = shape img -> Pil.blend d img f = Some out -> shape out = shape img.
Proof.
  intros Hs. unfold Pil.blend. destruct (list_eq_dec _ _ _); [|discriminate].
  destruct (SFeqb _ _); [intros [= <-]; exact Hs|].
  destruct (SFeqb _ _); intros [= <-]; [reflexivity|].
  rewrite shape_zipw2 by exact Hs. exact Hs.
Qed.

(** X11: brightness, contrast, sharpness and saturation, for every factor,
    return a new 8-bit image when given a loaded 8-bit image; they do not
    fail. *)
Theorem enhancers_stay_8bit E f a s im img :
  In a (enhancers f) -> nth_error (heap s) im = Some (BU8 img) ->
  iforall (pforall in_u8) img = true ->
  exists l s' out, run_adjustment E a im s = Ret l s' /\
    nth_error (heap s') l = Some (BU8 out) /\ iforall (pforall in_u8) out = true.
Proof.
  intros Ha Hi Hu. destruct s as [h ins outs]. cbn [heap] in Hi.
  destruct (enhancer_degenerate E f a im Ha) as [deg [Hrun Hdeg]].
  destruct (Hdeg img) as [Hs Hdu].
  destruct (enhance_op_u8 deg h ins outs im img f Hi Hs (Hdu Hu) Hu) as [out [Ho Hou]].
  rewrite Hrun, Ho. do 3 eexists. split; [reflexivity|].
  split; [apply nth_error_second | exact Hou].
Qed.

Lemma enhancer_keeps_shape E f a h ins outs im img :
  In a (enhancers f) -> nth_error h im = Some (BU8 img) ->
  match run_adjustment E a im (mkState h ins outs) with
  | Ret l s' => exists out, nth_error (heap s') l = Some (BU8 out) /\ shape out = shape img
  | Raise _ _ => True
  end.
Proof.
  intros Ha Hi. destruct (enhancer_degenerate E f a im Ha) as [deg [Hrun Hdeg]].
  destruct (Hdeg img) as [Hs _].
  rewrite Hrun, (enhance_op_value deg h ins outs im img f Hi).
  destruct (Pil.blend (deg img) img f) as [out|] eqn:Hb; [|exact I].
  exists out. split; [apply nth_error_second|]. exact (blend_shape _ _ _ _ Hs Hb).
Qed.

(** X12: every one of the seven adjustments that returns produces an image of the input's height and row widths. *)
Theorem adjustments_keep_shape E a s im img :
  nth_error (heap s) im = Some (BU8 img) ->
  match run_adjustment E a im s with
  | Ret l s' => exists out, nth_error (heap s') l = Some (BU8 out) /\ shape out = shape img
  | Raise _ _ => True
  end.
Proof.
  intros Hi. destruct s as [h ins outs]. simpl in Hi.
  destruct a as [g| |f|f|f|f|g].
  - simpl. rewrite (apply_gamma_value E h ins outs im img g Hi).
    destruct (Qle_bool 0 g); [|exact I].
    destruct (concat img) as [|p ps] eqn:Hc.
    + rewrite float_run_empty by exact Hc. exact I.
    + rewrite float_run_ok by (rewrite Hc; discriminate).
      eexists; split; [cbn [heap]; rewrite nth_error_app_offset; reflexivity|].
      apply shape_imap.
  - simpl. destruct (concat img) as [|p ps] eqn:Hc.
    + rewrite (apply_hist_eq_empty h ins outs im img Hi Hc). exact I.
    + rewrite (apply_hist_eq_value h ins outs im img Hi) by (rewrite Hc; discriminate).
      eexists; split; [cbn [heap]; rewrite nth_error_app_offset; reflexivity|].
      rewrite shape_imap. apply hist_eq_ycrcb_shape.
  - apply (enhancer_keeps_shape E f); [simpl; tauto | exact Hi].
  - apply (enhancer_keeps_shape E f); [simpl; tauto | exact Hi].
  - apply (enhancer_keeps_shape E f); [simpl; tauto | exact Hi].
  - apply (enhancer_keeps_shape E f); [simpl; tauto | exact Hi].
  - simpl. rewrite (adjust_exposure_value E h ins outs im img g Hi).
    destruct (concat img) as [|p ps] eqn:Hc.
    + rewrite float_run_empty by exact Hc. exact I.
    + rewrite float_run_ok by (rewrite Hc; discriminate).
      eexists; split; [cbn [heap]; rewrite nth_error_app_offset; reflexivity|].
      apply shape_imap.
Qed.

Lemma enhance_op_zero deg h ins outs im img :
  nth_error h im = Some (BU8 img) -> shape (deg img) = shape img ->
  enhance_op deg im 0 (mkState h ins outs) =
  Ret (S (length h)) (mkState (h ++ [BU8 (deg img); BU8 (deg img)]) ins outs).
Proof.
  intros Hi Hs. rewrite (enhance_op_value deg h ins outs im img 0 Hi), blend_zero by exact Hs.
  reflexivity.
Qed.

(** X15: with factor 0 each enhancer returns its degenerate image:
    brightness a black image, contrast the uniform image of the clipped
    mean luma, sharpness the SMOOTH-filtered image and saturation the
    gray image of the ITU-R 601-2 luma. *)
Theorem enhancers_factor_zero E s im img :
  nth_error (heap s) im = Some (BU8 img) ->
  returns_same_pixels E (ABrightness 0) im (Pil.brightness_degenerate img) s /\
  returns_same_pixels E (AContrast 0) im (Pil.contrast_degenerate img) s /\
  returns_same_pixels E (ASharpness 0) im (Pil.sharpness_degenerate (smooth_px E) img) s /\
  returns_same_pixels E (ASaturation 0) im (Pil.color_degenerate img) s.
Proof.
  intros Hi. destruct s as [h ins outs]. cbn [heap] in Hi. unfold returns_same_pixels.
  split; [|split; [|split]]; simpl;
    unfold adjust_brightness, adjust_contrast, adjust_sharpness, adjust_saturation;
    (rewrite (enhance_op_zero _ h ins outs im img Hi);
     [do 2 eexists; split; [reflexivity | apply nth_error_second]|]).
  - apply shape_imap.
  - apply shape_imap.
  - apply shape_mapi.
  - apply shape_imap.
Qed.

Lemma first_bin_range (vals : list Z) : 0 <= Cv.first_bin vals <= 255.
Proof.
  unfold Cv.first_bin.
  destruct (find _ _) as [v|] eqn:Hf; [|lia].
  apply find_some in Hf as [Hin _]. apply in_map_iff in Hin as [n [<- Hn]].
  apply in_seq in Hn. lia.
Qed.

(** [equalizeHist] is a lookup table on the gray values, into [0, 255]. *)
Lemma equalize_hist_lut (g : gray) :
  exists f : Z -> Z,
    (forall v, in_u8 v = true -> in_u8 (f v) = true) /\
    Cv.equalize_hist g = imap f g.
Proof.
  unfold Cv.equalize_hist. set (vals := concat g).
  destruct (Nat.eqb (length vals) 0).
  - exists (fun v => v). split; [auto|].
    symmetry. apply (imap_id_on (fun _ => true)); [|auto].
    unfold iforall. apply forallb_forall. intros r _. apply forallb_forall. auto.
  - cbv zeta. pose proof (first_bin_range vals) as Hi0.
    destruct (Cv.hist vals (Cv.first_bin vals) =? _).
    + exists (fun _ => Cv.first_bin vals). split; [|reflexivity].
      intros v _. unfold in_u8. apply andb_true_intro; split; apply Z.leb_le; lia.
    + eexists. split; [|reflexivity].
      intros v _. cbv beta. destruct (v <=? _); [reflexivity | apply in_u8_clamp8].
Qed.

Lemma imap_ext_on {A B : Type} (p : A -> bool) (f g : A -> B) (img : list (list A)) :
  iforall p img = true -> (forall x, p x = true -> f x = g x) -> imap f img = imap g img.
Proof.
  intros H Hf. unfold iforall, imap in *. induction img as [|r t IH]; simpl in *; auto.
  apply andb_prop in H as [Hr Ht]. rewrite IH by exact Ht. f_equal.
  rewrite forallb_forall in Hr. apply map_ext_in. intros x Hx. apply Hf, Hr, Hx.
Qed.

Lemma set_ch0_imap (g : pixel -> pixel) (k : pixel -> Z) (img : image) :
  Cv.set_ch0 (imap g img) (imap k img) =
  imap (fun p => let '(_, cr, cb) := g p in (k p, cr, cb)) img.
Proof.
  unfold Cv.set_ch0, imap. induction img as [|r t IH]; simpl; [reflexivity|].
  rewrite IH. f_equal. induction r as [|x u IHr]; simpl; [reflexivity|].
  rewrite IHr. reflexivity.
Qed.

(** A gray pixel: three equal 8-bit channels. *)
Definition is_gray (p : pixel) : bool :=
  let '(r, g, b) := p in in_u8 r && (r =? g) && (r =? b).

Lemma rgb2ycrcb_gray (v : Z) : in_u8 v = true -> Cv.rgb2ycrcb_px (v, v, v) = (v, 128, 128).
Proof.
  intros Hv. unfold Cv.rgb2ycrcb_px, Cv.descale.
  assert (Hy : Z.shiftr (v * 4899 + v * 9617 + v * 1868 + 8192) 14 = v).
  { rewrite Z.shiftr_div_pow2 by lia.
    replace (v * 4899 + v * 9617 + v * 1868 + 8192) with (8192 + v * 2 ^ 14) by ring.
    rewrite Z.div_add by lia. reflexivity. }
  rewrite Hy, clamp8_u8 by exact Hv. rewrite Z.sub_diag. reflexivity.
Qed.

Lemma ycrcb2rgb_gray (w : Z) : in_u8 w = true -> Cv.ycrcb2rgb_px (w, 128, 128) = (w, w, w).
Proof.
  intros Hw. unfold Cv.ycrcb2rgb_px, Cv.descale. cbn -[clamp8].
  rewrite !Z.add_0_r, clamp8_u8 by exact Hw. reflexivity.
Qed.

Lemma gray_px (p : pixel) : is_gray p = true ->
  exists v, p = (v, v, v) /\ in_u8 v = true.
Proof.
  destruct p as [[r g] b]. simpl. intros H.
  apply andb_prop in H as [H Hb]. apply andb_prop in H as [Hr Hg].
  apply Z.eqb_eq in Hg, Hb. subst. eauto.
Qed.

(** X14: histogram equalization maps a gray 8-bit image with a pixel to a
    gray image: every gray level goes through one lookup table with values
    in [0,255]. *)
Theorem hist_eq_keeps_gray (h : list buf) (ins : list string) (outs : list event)
  (im : nat) (img : image) :
  nth_error h im = Some (BU8 img) -> iforall is_gray img = true -> concat img <> [] ->
  exists f : Z -> Z,
    (forall v, in_u8 v = true -> in_u8 (f v) = true) /\
    exists s', apply_hist_eq im (mkState h ins outs) = Ret (length h + 4)%nat s' /\
      nth_error (heap s') (length h + 4) =
        Some (BU8 (imap (fun p => let w := f (Cv.ch0 p) in (w, w, w)) img)).
Proof.
  intros Hi Hg Hne. rewrite (apply_hist_eq_value h ins outs im img Hi Hne).
  assert (Hch : imap Cv.ch0 (imap Cv.rgb2ycrcb_px img) = imap Cv.ch0 img).
  { rewrite imap_imap. apply (imap_ext_on is_gray); [exact Hg|].
    intros p Hp. destruct (gray_px p Hp) as [v [-> Hv]].
    rewrite rgb2ycrcb_gray by exact Hv. reflexivity. }
  destruct (equalize_hist_lut (imap Cv.ch0 img)) as [f [Hu He]].
  exists f. split; [exact Hu|].
  eexists. split; [reflexivity|]. cbn [heap].
  rewrite nth_error_app_offset. cbn. f_equal. f_equal.
  unfold hist_eq_ycrcb. rewrite Hch, He, imap_imap.
  rewrite set_ch0_imap, imap_imap. apply (imap_ext_on is_gray); [exact Hg|].
  intros p Hp. destruct (gray_px p Hp) as [v [-> Hv]].
  rewrite rgb2ycrcb_gray by exact Hv. cbn [Cv.ch0].
  apply ycrcb2rgb_gray, Hu, Hv.
Qed.

Definition gray_img : image := [[(10, 10, 10); (200, 200, 200)]; [(10, 10, 10); (90, 90, 90)]].

Lemma hist_eq_keeps_gray_witness :
  nth_error [BU8 gray_img] 0 = Some (BU8 gray_img) /\ iforall is_gray gray_img = true /\
  concat gray_img <> [] /\
  exists f : Z -> Z,
    (forall v, in_u8 v = true -> in_u8 (f v) = true) /\
    exists s', apply_hist_eq 0 (mkState [BU8 gray_img] [] []) = Ret (length [BU8 gray_img] + 4)%nat s' /\
      nth_error (heap s') (length [BU8 gray_img] + 4) =
        Some (BU8 (imap (fun p => let w := f (Cv.ch0 p) in (w, w, w)) gray_img)).
Proof.
  split; [reflexivity|]. split; [reflexivity|]. split; [discriminate|].
  apply hist_eq_keeps_gray; [reflexivity | reflexivity | discriminate].
Defined.

(** ** Concrete instances of the properties above *)

(** A parser that also reads a leading minus sign. *)
Definition signed_env : Env := {|
  parse_float := fun s => match s with
                          | String "-" t => option_map Qopp (parse_dec t 0 1 false false)
                          | _ => parse_dec s 0 1 false false
                          end;
  gamma_curve := gamma_curve demo_env;
  log_curve := log_curve demo_env;
  smooth_px := smooth_px demo_env;
  load_file := load_file demo_env;
  pil_accepts := pil_accepts demo_env
|}.

Lemma negative_gamma_ends_session_witness :
  nth_error [BU8 demo_img] 0 = Some (BU8 demo_img) /\
  parse_float signed_env "-1" = Some (-1)%Q /\ Qle_bool 0 (-1) = false /\
  loop signed_env 1 0 false (mkState [BU8 demo_img] ["1"; "-1"]%string []) =
  Raise (ValueError "Gamma should be a non-negative real number.")
        (mkState ([BU8 demo_img] ++ [BU8 demo_img; BF (Sk.img_as_float demo_img)]) []
                 (after_choice [] ++ [EPrompt "Gamma [1]: "])).
Proof.
  split; [reflexivity|]. split; [reflexivity|]. split; [reflexivity|].
  apply (negative_gamma_ends_session signed_env 0 0 false [BU8 demo_img] demo_img
           "-1" [] [] (-1)%Q); reflexivity.
Defined.

Lemma unparsable_parameter_ends_session_witness :
  In ("3", "Brightness [1]: ")%string param_choices /\
  parse_float demo_env "abc" = None /\
  loop demo_env 1 0 true (mkState [BU8 demo_img] ["3"; "abc"]%string []) =
  Raise (ValueError "could not convert string to float")
        (mkState [BU8 demo_img] [] (after_choice [] ++ [EPrompt "Brightness [1]: "])).
Proof.
  split; [right; left; reflexivity|]. split; [reflexivity|].
  apply unparsable_parameter_ends_session; [right; left; reflexivity | reflexivity].
Defined.

Lemma rejected_save_path_ends_session_witness :
  nth_error [BU8 demo_img] 0 = Some (BU8 demo_img) /\
  pil_accepts demo_env "out.bmp" = false /\
  loop demo_env 1 0 true (mkState [BU8 demo_img] ["9"; "out.bmp"]%string []) =
  Raise (ValueError "unknown file extension")
        (mkState [BU8 demo_img] [] (after_choice [] ++ [EPrompt "Save as: "])).
Proof.
  split; [reflexivity|]. split; [reflexivity|].
  apply (rejected_save_path_ends_session demo_env 0 0 [BU8 demo_img] demo_img); reflexivity.
Defined.

Lemma loop_fuel_adequate_witness :
  (length (stdin (mkState [BU8 demo_img] ["2"; "0"]%string [])) < 3)%nat /\
  (length (stdin (mkState [BU8 demo_img] ["2"; "0"]%string [])) < 7)%nat /\
  loop demo_env 3 0 false (mkState [BU8 demo_img] ["2"; "0"]%string []) =
  loop demo_env 7 0 false (mkState [BU8 demo_img] ["2"; "0"]%string []).
Proof.
  split; [simpl; lia|]. split; [simpl; lia|].
  apply loop_fuel_adequate; simpl; lia.
Defined.

Lemma gamma_identity_curve_keeps_pixels_witness :
  exists s', apply_gamma pow_env 0 1 s_demo = Ret (length (heap s_demo) + 5)%nat s' /\
    nth_error (heap s') (length (heap s_demo) + 5) = Some (BU8 demo_img).
Proof.
  apply gamma_identity_curve_keeps_pixels; [reflexivity|reflexivity|discriminate|reflexivity|].
  intros x _. reflexivity.
Defined.

Lemma enhancers_stay_8bit_witness :
  In (AContrast (1 # 2)) (enhancers (1 # 2)) /\
  exists l s' out, run_adjustment demo_env (AContrast (1 # 2)) 0 s_demo = Ret l s' /\
    nth_error (heap s') l = Some (BU8 out) /\ iforall (pforall in_u8) out = true.
Proof.
  split; [right; left; reflexivity|].
  apply (enhancers_stay_8bit demo_env (1 # 2) (AContrast (1 # 2)) s_demo 0 demo_img);
    [right; left; reflexivity|reflexivity|reflexivity].
Defined.

Lemma adjustments_keep_shape_witness :
  nth_error (heap s_demo) 0 = Some (BU8 demo_img) /\
  match run_adjustment demo_env (AExposure 2) 0 s_demo with
  | Ret l s' => exists out, nth_error (heap s') l = Some (BU8 out) /\ shape out = shape demo_img
  | Raise _ _ => True
  end.
Proof.
  split; [reflexivity|]. apply adjustments_keep_shape. reflexivity.
Defined.

Lemma enhancers_factor_zero_witness :
  nth_error (heap s_demo) 0 = Some (BU8 demo_img) /\
  returns_same_pixels demo_env (ABrightness 0) 0 (Pil.brightness_degenerate demo_img) s_demo /\
  returns_same_pixels demo_env (AContrast 0) 0 (Pil.contrast_degenerate demo_img) s_demo /\
  returns_same_pixels demo_env (ASharpness 0) 0
    (Pil.sharpness_degenerate (smooth_px demo_env) demo_img) s_demo /\
  returns_same_pixels demo_env (ASaturation 0) 0 (Pil.color_degenerate demo_img) s_demo.
Proof.
  split; [reflexivity|]. apply enhancers_factor_zero. reflexivity.
Defined.
